(** * Helios DAC Go SDK: motion planning and frame assembly

    A shallow embedding of the Go sources under [sdk/go]:
    - [helios.go]                       the binding ([Point], [WriteFrame], ...),
    - [examples/dot/main.go]            travel planner, ring generator, padding,
                                        replay loop,
    - [examples/advanced_pattern]       [GenerateLine], [GenerateDwell],
    - [examples/concurrent/main.go]     producer / consumer pipeline.

    Go's [float64] is IEEE-754 binary64 and is embedded as Rocq's primitive
    [float]; Go's [int] is the 64-bit two's complement integer, embedded as
    [Z] with the wrap-around written out; [time.Duration] is an [int64]
    count of nanoseconds. *)

From Stdlib Require Import ZArith List Bool Lia Floats QArith Lqa.
From Stdlib Require Uint63.
Import ListNotations.
Local Open Scope Z_scope.

(* ================================================================== *)
(** * Part I: the embedding                                            *)
(* ================================================================== *)

(** ** Go's numeric types and the parts of [math] and [time] the code uses *)
Module F64.

Definition int64_min : Z := - 2 ^ 63.
Definition int64_max : Z := 2 ^ 63 - 1.

(** Two's complement wrap-around of Go's [int] (64 bits). *)
Definition wrap64 (z : Z) : Z := (z + 2 ^ 63) mod 2 ^ 64 - 2 ^ 63.

(** Conversion of a Go [int] to a C [int] (32 bits), and back. *)
Definition wrap32 (z : Z) : Z := (z + 2 ^ 31) mod 2 ^ 32 - 2 ^ 31.

(** [float64(i)] for an [int] (or [uint16]) [i]: round to nearest even. *)
Definition of_int (z : Z) : float :=
  if z =? int64_min then (-0x1p63)%float
  else if z <? 0 then (- of_uint63 (Uint63.of_Z (- z)))%float
  else of_uint63 (Uint63.of_Z z).

(** The exact value of a finite float as [m * 2 ^ e]. *)
Definition mant_exp (f : float) : option (Z * Z) :=
  match Prim2SF f with
  | S754_zero _ => Some (0, 0)
  | S754_finite s m e => Some (if s then Z.neg m else Z.pos m, e)
  | S754_infinity _ | S754_nan => None
  end.

Definition ceilZ (f : float) : option Z :=
  match mant_exp f with
  | Some (m, e) => Some (if 0 <=? e then m * 2 ^ e else - ((- m) / 2 ^ (- e)))
  | None => None
  end.

Definition truncZ (f : float) : option Z :=
  match mant_exp f with
  | Some (m, e) => Some (if 0 <=? e then m * 2 ^ e else Z.quot m (2 ^ (- e)))
  | None => None
  end.

(** Conversions from [float64] to integer types truncate toward zero.
    Go leaves the result implementation-dependent when the value does not
    fit; the model follows amd64, where [CVTTSD2SQ]/[CVTTSD2SL] return the
    "integer indefinite" value (the minimum integer) for NaN and for
    out-of-range operands, and narrow types go through [int32]. *)
Definition to_int64 (f : float) : Z :=
  match truncZ f with
  | Some z => if (int64_min <=? z) && (z <=? int64_max) then z else int64_min
  | None => int64_min
  end.

Definition to_int32 (f : float) : Z :=
  match truncZ f with
  | Some z => if (- 2 ^ 31 <=? z) && (z <? 2 ^ 31) then z else - 2 ^ 31
  | None => - 2 ^ 31
  end.

Definition to_uint16 (f : float) : Z := to_int32 f mod 2 ^ 16.

(** [math.Ceil]: the least integer value not below [f]; zeros, infinities
    and NaN are returned unchanged, and a result of zero keeps the sign
    of [f]. *)
Definition Ceil (f : float) : float :=
  match Prim2SF f with
  | S754_finite s _ e =>
      if 0 <=? e then f
      else match ceilZ f with
           | Some 0 => if s then neg_zero else zero
           | Some z => of_int z
           | None => f
           end
  | _ => f
  end.

(** [math.Round]: nearest integer value, halves away from zero. *)
Definition Round (f : float) : float :=
  match Prim2SF f with
  | S754_finite s m e =>
      if 0 <=? e then f
      else let a := (2 * Z.pos m + 2 ^ (- e)) / 2 ^ (- e + 1) in
           if a =? 0 then (if s then neg_zero else zero)
           else of_int (if s then - a else a)
  | _ => f
  end.

(** [math.Hypot], as written in Go's [math/hypot.go]. *)
Definition Hypot (p q : float) : float :=
  let p := PrimFloat.abs p in
  let q := PrimFloat.abs q in
  if is_infinity p || is_infinity q then infinity
  else if is_nan p || is_nan q then nan
  else
    let '(p, q) := if (p <? q)%float then (q, p) else (p, q) in
    if (p =? 0)%float then 0%float
    else let q := (q / p)%float in (p * PrimFloat.sqrt (1 + q * q))%float.

(** [math.Pi] as a [float64]. *)
Definition Pi : float := 0x1.921fb54442d18p+1%float.

(** [time.Duration] constants (nanoseconds). *)
Definition Duration := Z.
Definition Nanosecond : Duration := 1.
Definition Microsecond : Duration := 1000 * Nanosecond.
Definition Millisecond : Duration := 1000 * Microsecond.
Definition Second : Duration := 1000 * Millisecond.

(** [Duration.Seconds]: integer division and remainder truncate toward
    zero, then [float64(sec) + float64(nsec)/1e9]. *)
Definition Seconds (d : Duration) : float :=
  (of_int (Z.quot d Second) + of_int (Z.rem d Second) / 1e9)%float.

(** [for k := lo; k <= hi; k++]: the values [k] takes, in order. *)
Fixpoint range_from (lo : Z) (n : nat) : list Z :=
  match n with
  | O => []
  | S n' => lo :: range_from (lo + 1) n'
  end.

Definition range (lo hi : Z) : list Z := range_from lo (Z.to_nat (hi - lo + 1)).

End F64.

(** ** [helios.go]: the point type *)
Module helios.

(** [Point]: [X], [Y] are [uint16] (12-bit coordinates, 0 - 4095),
    [R], [G], [B], [I] are [uint8]. *)
Record Point : Type := mkPoint
  { X : Z; Y : Z; R : Z; G : Z; B : Z; I : Z }.

Definition blanked (p : Point) : Prop :=
  R p = 0 /\ G p = 0 /\ B p = 0 /\ I p = 0.

(** [PointHighRes] and [PointExt]: every field is a [uint16]. *)
Record PointHighRes : Type := mkPointHighRes
  { hX : Z; hY : Z; hR : Z; hG : Z; hB : Z }.

Record PointExt : Type := mkPointExt
  { eX : Z; eY : Z; eR : Z; eG : Z; eB : Z; eI : Z;
    User1 : Z; User2 : Z; User3 : Z; User4 : Z }.

(** The calls into the C wrapper ([wrapper.h]) that the binding makes, with
    the arguments it passes: the handle, then C [int]s, then for a frame
    the array of points and its length. *)
Inductive ccall : Type :=
| HeliosDac_Delete (handle : Z)
| HeliosDac_OpenDevices (handle : Z)
| HeliosDac_CloseDevices (handle : Z)
| HeliosDac_GetStatus (handle deviceIndex : Z)
| HeliosDac_WriteFrame (handle deviceIndex pps flags : Z)
    (points : list Point) (numOfPoints : Z)
| HeliosDac_WriteFrameHighResolution (handle deviceIndex pps flags : Z)
    (points : list PointHighRes) (numOfPoints : Z)
| HeliosDac_WriteFrameExtended (handle deviceIndex pps flags : Z)
    (points : list PointExt) (numOfPoints : Z)
| HeliosDac_GetFirmwareVersion (handle deviceIndex : Z)
| HeliosDac_Stop (handle deviceIndex : Z)
| HeliosDac_SetShutter (handle deviceIndex : Z) (level : bool).

(** A Go computation that calls into C: it returns, or makes a call and
    goes on with the C [int] the call returns. *)
Inductive cgo (A : Type) : Type :=
| Ret (a : A)
| Call (c : ccall) (k : Z -> cgo A).
Arguments Ret {A} a.
Arguments Call {A} c k.

(** Running a computation against a device: [dev] answers each call and
    moves the state of the world [W]. *)
Fixpoint run {W A : Type} (dev : W -> ccall -> W * Z) (m : cgo A) (w : W)
  : W * A :=
  match m with
  | Ret a => (w, a)
  | Call c k => let '(w', r) := dev w c in run dev (k r) w'
  end.

(** The calls a computation makes, in order, given what C answers. *)
Fixpoint calls {A : Type} (answer : ccall -> Z) (m : cgo A) : list ccall :=
  match m with
  | Ret _ => []
  | Call c k => c :: calls answer (k (answer c))
  end.

(** [DAC]: the wrapper's handle ([0] is [nil]). *)
Record DAC : Type := mkDAC { handle : Z }.

(** [int(C.f(...))]: the C [int] result widened to a Go [int]. *)
Definition int_of_C (c : ccall) : cgo Z := Call c (fun r => Ret (F64.wrap32 r)).

Definition len {A : Type} (l : list A) : Z := Z.of_nat (length l).

Definition WriteFrame (d : DAC) (deviceIndex pps flags : Z) (points : list Point)
  : cgo Z :=
  if len points =? 0 then Ret 0
  else int_of_C (HeliosDac_WriteFrame (handle d) (F64.wrap32 deviceIndex)
                   (F64.wrap32 pps) (F64.wrap32 flags) points
                   (F64.wrap32 (len points))).

Definition WriteFrameHighResolution (d : DAC) (deviceIndex pps flags : Z)
    (points : list PointHighRes) : cgo Z :=
  if len points =? 0 then Ret 0
  else int_of_C (HeliosDac_WriteFrameHighResolution (handle d)
                   (F64.wrap32 deviceIndex) (F64.wrap32 pps) (F64.wrap32 flags)
                   points (F64.wrap32 (len points))).

Definition WriteFrameExtended (d : DAC) (deviceIndex pps flags : Z)
    (points : list PointExt) : cgo Z :=
  if len points =? 0 then Ret 0
  else int_of_C (HeliosDac_WriteFrameExtended (handle d)
                   (F64.wrap32 deviceIndex) (F64.wrap32 pps) (F64.wrap32 flags)
                   points (F64.wrap32 (len points))).

Definition GetStatus (d : DAC) (deviceIndex : Z) : cgo Z :=
  int_of_C (HeliosDac_GetStatus (handle d) (F64.wrap32 deviceIndex)).

Definition Stop (d : DAC) (deviceIndex : Z) : cgo Z :=
  int_of_C (HeliosDac_Stop (handle d) (F64.wrap32 deviceIndex)).

Definition OpenDevices (d : DAC) : cgo Z :=
  int_of_C (HeliosDac_OpenDevices (handle d)).

(** [Close]: deletes the C++ instance once and clears the handle. *)
Definition Close (d : DAC) : cgo DAC :=
  if handle d =? 0 then Ret d
  else Call (HeliosDac_Delete (handle d)) (fun _ => Ret (mkDAC 0)).

End helios.

(** ** [examples/dot/main.go] *)
Module Dot.
Import F64 helios.

Definition galvoBitDepth : Z := 12.
Definition galvoFullScale : Z := Z.shiftl 1 galvoBitDepth.
Definition galvoMaxCoord : Z := galvoFullScale - 1.

Definition stepResponseSmallAngle : Duration := 250 * Microsecond.
Definition stepResponseLargeAngle : Duration := 1000 * Microsecond.
Definition defaultPPS : Z := 50000.

(** [alpha := t * t * (3.0 - 2.0*t)], the S-curve of [getTravelPoints]. *)
Definition smoothstep (t : float) : float := (t * t * (3 - 2 * t))%float.

(** The number of transition samples [getTravelPoints] computes. *)
Definition travelPoints (startX startY endX endY : float) (pps : Z) : Z :=
  let dist := Hypot (endX - startX) (endY - startY) in
  let ratio := (dist / of_int galvoFullScale)%float in
  let ratio := if (1 <? ratio)%float then 1%float else ratio in
  let reqTime :=
    wrap64 (stepResponseSmallAngle
            + to_int64 (of_int (stepResponseLargeAngle - stepResponseSmallAngle)
                        * ratio)%float) in
  let n := to_int64 (Ceil (Seconds reqTime * of_int pps)%float) in
  if n <? 1 then 1 else n.

(** The sample emitted at step [k] of the transition loop. *)
Definition travelPoint (startX startY endX endY : float) (n k : Z) : Point :=
  let t := (of_int k / of_int n)%float in
  let alpha := smoothstep t in
  let ix := (startX + (endX - startX) * alpha)%float in
  let iy := (startY + (endY - startY) * alpha)%float in
  mkPoint (to_uint16 ix) (to_uint16 iy) 0 0 0 0.

(** The number of settling samples (150 microseconds of dead time). *)
Definition settlePoints (pps : Z) : Z :=
  let settleTime := 150 * Microsecond in
  let n := to_int64 (Ceil (Seconds settleTime * of_int pps)%float) in
  if n <? 1 then 1 else n.

Definition getTravelPoints (startX startY endX endY : float) (pps : Z)
  : list Point :=
  let n := travelPoints startX startY endX endY pps in
  map (travelPoint startX startY endX endY n) (range 1 n)
  ++ repeat (mkPoint (to_uint16 endX) (to_uint16 endY) 0 0 0 0)
            (Z.to_nat (settlePoints pps)).

(** [math.Cos] and [math.Sin] belong to Go's library, not to this
    repository: the ring generator is stated for any pair of functions. *)
Section Ring.
Variables Cos Sin : float -> float.

(** The sample emitted at step [i] of the ring loop. *)
Definition ringPoint (cx cy : float) (dotRadius ringPts i : Z) : Point :=
  let t := (of_int i / of_int ringPts)%float in
  let theta := (2 * Pi * t)%float in
  let px := to_uint16 (cx + of_int dotRadius * Cos theta)%float in
  let py := to_uint16 (cy + of_int dotRadius * Sin theta)%float in
  mkPoint px py 255 255 255 255.

(** The blanked move from the centre to the start of the ring. *)
Definition ringTravel (cx cy : float) (dotRadius pps : Z) : list Point :=
  let ringStart :=
    mkPoint (to_uint16 (cx + of_int dotRadius)%float) (to_uint16 cy) 0 0 0 0 in
  getTravelPoints cx cy (of_int (X ringStart)) (of_int (Y ringStart)) pps.

(** The length of the ring: what is left of the budget, at least 10. *)
Definition ringPts (availableForDrawing travelLen : Z) : Z :=
  let n := wrap64 (availableForDrawing - travelLen) in
  if n <? 10 then 10 else n.

Definition getFeaturePoints (cx cy : float) (dotRadius pointBudget pps : Z)
  : list Point :=
  let availableForDrawing := wrap64 (pointBudget - 1) in
  if availableForDrawing <? 10 then []
  else
    let travel := ringTravel cx cy dotRadius pps in
    let n := ringPts availableForDrawing (Z.of_nat (length travel)) in
    travel ++ map (ringPoint cx cy dotRadius n) (range 1 n).

(** [main], lines 37-39: the bounds check on the centre. *)
Definition centreInBounds (x y : Z) : bool :=
  negb ((x <? 0) || (x >? galvoMaxCoord) || (y <? 0) || (y >? galvoMaxCoord)).

Definition targetFrameTime : Duration := 15 * Millisecond.

Definition pointBudget (pps : Z) : Z :=
  to_int64 (Seconds targetFrameTime * of_int pps)%float.

(** [int(float64(pointBudget) * 0.8)]; [0.8] is the nearest [float64]. *)
Definition featureBudget (pps : Z) : Z :=
  to_int64 (of_int (pointBudget pps) * 0x1.999999999999ap-1)%float.

(** [main], lines 52-63: the feature followed by the flyback from its
    last point to the centre. *)
Definition compilePoints (x y radius pps : Z) : list Point :=
  let points :=
    getFeaturePoints (of_int x) (of_int y) radius (featureBudget pps) pps in
  match rev points with
  | [] => points
  | lastPt :: _ =>
      points ++ getTravelPoints (of_int (X lastPt)) (of_int (Y lastPt))
                                (of_int x) (of_int y) pps
  end.
End Ring.

(** [main], lines 69-75: the padding loop.  [None] means that the loop
    has not finished within [fuel] iterations. *)
Definition targetBufferPoints : Z := 2000.

Fixpoint padLoop (fuel : nat) (singleLoop points : list Point)
  : option (list Point) :=
  match fuel with
  | O => None
  | S fuel' =>
      if Z.of_nat (length points) <? targetBufferPoints
      then padLoop fuel' singleLoop (points ++ singleLoop)
      else Some points
  end.

Definition fillBuffer (fuel : nat) (points : list Point) : option (list Point) :=
  padLoop fuel points points.

(** What [main] does before it opens the device. *)
Inductive outcome : Type :=
| Fatal                         (* log.Fatalf: coordinates out of bounds *)
| Spinning                      (* the padding loop has not finished *)
| Frame (points : list Point).

Definition compileFrame (Cos Sin : float -> float) (fuel : nat)
  (x y radius pps : Z) : outcome :=
  if centreInBounds x y then
    match fillBuffer fuel (compilePoints Cos Sin x y radius pps) with
    | Some points => Frame points
    | None => Spinning
    end
  else Fatal.

(** [main], lines 77 and 97-127: the replay loop. *)
Definition frameDuration (len pps : Z) : Duration :=
  to_int64 (of_int len / of_int pps * of_int Second)%float.

(** [time.Duration(float64(frameDuration) * 0.9)]. *)
Definition minReplayInterval (fd : Duration) : Duration :=
  to_int64 (of_int fd * 0x1.ccccccccccccdp-1)%float.

(** Clock readings are nanoseconds on the process's monotonic clock.
    [lastWriteTime] starts as the zero [time.Time], for which
    [time.Since] saturates at the largest [Duration]. *)
Definition Since (now : Z) (lastWriteTime : option Z) : Duration :=
  match lastWriteTime with
  | None => int64_max
  | Some t => now - t
  end.

(** One firing of the ticker, with what the environment answers in it:
    the clock when [time.Since] is read, for each device its status and
    the clock when it is polled (and written, if ready), and the clock
    when [time.Now] is read. *)
Record Tick : Type := mkTick
  { sinceAt : Z; polls : list (Z * Z); nowAt : Z }.

Record Write : Type := mkWrite { device : Z; writeAt : Z }.

(** [for i := 0; i < numDevices; i++]: the writes of one pass. *)
Fixpoint pollDevices (i : Z) (polls : list (Z * Z)) : list Write :=
  match polls with
  | [] => []
  | (status, at_) :: rest =>
      if status =? 1 then mkWrite i at_ :: pollDevices (i + 1) rest
      else pollDevices (i + 1) rest
  end.

Definition onTick (minReplay : Duration) (lastWriteTime : option Z) (t : Tick)
  : list Write * option Z :=
  if Since (sinceAt t) lastWriteTime <? minReplay then ([], lastWriteTime)
  else
    let written := pollDevices 0 (polls t) in
    match written with
    | [] => ([], lastWriteTime)
    | _ => (written, Some (nowAt t))
    end.

(** The events [select] can deliver. *)
Inductive event : Type :=
| Interrupt
| Ticker (t : Tick).

Fixpoint replayLoop (minReplay : Duration) (lastWriteTime : option Z)
  (events : list event) : list Write :=
  match events with
  | [] => []
  | Interrupt :: _ => []
  | Ticker t :: rest =>
      let '(written, last') := onTick minReplay lastWriteTime t in
      written ++ replayLoop minReplay last' rest
  end.

End Dot.

(** ** [examples/advanced_pattern/main.go] *)
Module Pattern.
Import F64 helios.

Definition MaxXY : Z := 4095.
Definition MaxColor : Z := 255.
Definition PPS : Z := 30000.

(** [int(float64(PPS) * duration.Seconds())], raised to 1. *)
Definition numPoints (duration : Duration) : Z :=
  let n := to_int64 (of_int PPS * Seconds duration)%float in
  if n <? 1 then 1 else n.

(** [t := float64(i) / float64(numPoints-1)]. *)
Definition lineDivisor (n : Z) : float := of_int (wrap64 (n - 1)).
Definition lineParam (n i : Z) : float := (of_int i / lineDivisor n)%float.

Definition linePoint (start stop : Point) (on : bool) (n i : Z) : Point :=
  let t := lineParam n i in
  let x := (of_int (X start) + t * (of_int (X stop) - of_int (X start)))%float in
  let y := (of_int (Y start) + t * (of_int (Y stop) - of_int (Y start)))%float in
  let px := to_uint16 (Round x) in
  let py := to_uint16 (Round y) in
  if on then mkPoint px py (R stop) (G stop) (B stop) (I stop)
  else mkPoint px py 0 0 0 0.

Definition GenerateLine (start stop : Point) (duration : Duration) (on : bool)
  : list Point :=
  let n := numPoints duration in
  map (linePoint start stop on n) (range 0 (n - 1)).

Definition dwellPoint (pos : Point) (on : bool) : Point :=
  if on then pos else mkPoint (X pos) (Y pos) 0 0 0 0.

Definition GenerateDwell (pos : Point) (duration : Duration) (on : bool)
  : list Point :=
  let n := numPoints duration in
  map (fun _ => dwellPoint pos on) (range 0 (n - 1)).

End Pattern.

(** ** [examples/concurrent/main.go] *)
Module Concurrent.
Import F64 helios.

Definition PPS : Z := 30000.
Definition Center : Z := 2048.
Definition ScanRange : Z := 1000.
Definition FrameRate : Z := 30.

Definition Frame : Type := list Point.

(** [generateFrames], lines 50-82: the frame computed at one tick, from
    the seconds elapsed since the start.  [math.Sin] is Go's. *)
Definition ScanSpeed : float := 2%float.

Definition framePoint (lineX yTop yBottom : float) (numPoints i : Z) : Point :=
  let progress := (of_int i / of_int (wrap64 (numPoints - 1)))%float in
  let x := lineX in
  let y := (yBottom + (yTop - yBottom) * progress)%float in
  mkPoint (to_uint16 x) (to_uint16 y) 0 255 0 255.

Definition generateFrame (Sin : float -> float) (elapsed : float) : Frame :=
  let xOffset := (Sin (elapsed * ScanSpeed) * of_int ScanRange)%float in
  let lineX := (of_int Center + xOffset)%float in
  let yTop := of_int (Center + ScanRange) in
  let yBottom := of_int (Center - ScanRange) in
  let numPoints := Z.quot PPS FrameRate in
  map (framePoint lineX yTop yBottom numPoints) (range 0 (numPoints - 1)).

(** [framesChan := make(chan []helios.Point, 2)]. *)
Definition capacity : nat := 2.

(** Where the writer ([outputLoop]) stands. *)
Inductive pc : Type :=
| AwaitFirst                      (* the initial [select], lines 111-116 *)
| LoopTop                         (* the cancellation check, lines 120-130 *)
| Drain                           (* [DrainLoop], lines 134-143 *)
| Poll                            (* [GetStatus] and the write, lines 150-157 *)
| Stopped.

(** The channel, the writer's [currentFrame] and position, and (ghost) the
    frames the generator has enqueued so far, oldest first. *)
Record state : Type := mkState
  { chan : list Frame; currentFrame : Frame; at_ : pc; sent : list Frame }.


Inductive label : Type :=
| Send (f : Frame)                (* the generator's [framesChan <- frame] *)
| Recv (f : Frame)                (* the writer's [f := <-framesChan] *)
| Continue                        (* [default:] of the cancellation check *)
| Drained                         (* [default: break DrainLoop] *)
| WriteFrame (f : Frame)          (* status 1: [dac.WriteFrame(0, PPS, 0, f)] *)
| Sleep                           (* any other status: sleep 1 ms *)
| Cancel.                         (* [<-ctx.Done()] *)

(** One step of the generator or of the writer.  A send needs room in the
    channel; a [select] with a [default] takes the receive whenever the
    channel holds a frame. *)
Inductive step : state -> label -> state -> Prop :=
| step_send (s : state) (f : Frame) :
    (length (chan s) < capacity)%nat ->
    step s (Send f)
         (mkState (chan s ++ [f]) (currentFrame s) (at_ s) (sent s ++ [f]))
| step_first (s : state) (f : Frame) (rest : list Frame) :
    at_ s = AwaitFirst -> chan s = f :: rest ->
    step s (Recv f) (mkState rest f LoopTop (sent s))
| step_cancel_first (s : state) :
    at_ s = AwaitFirst ->
    step s Cancel (mkState (chan s) (currentFrame s) Stopped (sent s))
| step_cancel (s : state) :
    at_ s = LoopTop ->
    step s Cancel (mkState (chan s) (currentFrame s) Stopped (sent s))
| step_continue (s : state) :
    at_ s = LoopTop ->
    step s Continue (mkState (chan s) (currentFrame s) Drain (sent s))
| step_drain (s : state) (f : Frame) (rest : list Frame) :
    at_ s = Drain -> chan s = f :: rest ->
    step s (Recv f) (mkState rest f Drain (sent s))
| step_drained (s : state) :
    at_ s = Drain -> chan s = [] ->
    step s Drained (mkState (chan s) (currentFrame s) Poll (sent s))
| step_write (s : state) :
    at_ s = Poll ->
    step s (WriteFrame (currentFrame s))
         (mkState (chan s) (currentFrame s) LoopTop (sent s))
| step_sleep (s : state) :
    at_ s = Poll ->
    step s Sleep (mkState (chan s) (currentFrame s) LoopTop (sent s)).


End Concurrent.

(** ** [helios.go]: sequencing calls *)
Module Cgo.
Import helios.

(** Running one computation after another. *)
Fixpoint bind {A B : Type} (m : cgo A) (k : A -> cgo B) : cgo B :=
  match m with
  | Ret a => k a
  | Call c h => Call c (fun r => bind (h r) k)
  end.

(** [dac.Close()] called twice in a row, as a deferred [Close] after an
    explicit one does. *)
Definition closeTwice (d : DAC) : cgo DAC := bind (Close d) Close.

(** The calls a computation makes when it runs against a device. *)
Fixpoint trace {W A : Type} (dev : W -> ccall -> W * Z) (m : cgo A) (w : W)
  : list ccall :=
  match m with
  | Ret _ => []
  | Call c k => let '(w', r) := dev w c in c :: trace dev (k r) w'
  end.

End Cgo.

(** ** [examples/simple/main.go] *)
Module Simple.
Import F64 helios.

Definition numFramesInLoop : Z := 20.
Definition numPointsPerFrame : Z := 1500.
Definition pointsPerSecond : Z := 40000.
Definition maxValue : Z := 65535.
Definition colorNormal : Z := 53503.

(** [uint16(v)] for an [int] [v]: the low 16 bits. *)
Definition uint16 (v : Z) : Z := v mod 2 ^ 16.

(** [y := uint16(i * maxValue / numFramesInLoop)]. *)
Definition frameY (i : Z) : Z :=
  uint16 (Z.quot (wrap64 (i * maxValue)) numFramesInLoop).

(** The horizontal sweep: up over the first half of the frame, down over
    the second. *)
Definition frameX (j : Z) : Z :=
  let half := Z.quot numPointsPerFrame 2 in
  if j <? half
  then uint16 (Z.quot (wrap64 (j * maxValue)) half)
  else uint16 (wrap64 (maxValue
                       - Z.quot (wrap64 (wrap64 (j - half) * maxValue)) half)).

Definition framePoint (i j : Z) : PointHighRes :=
  mkPointHighRes (frameX j) (frameY i) colorNormal maxValue colorNormal.

Definition frame (i : Z) : list PointHighRes :=
  map (framePoint i) (range 0 (numPointsPerFrame - 1)).

Definition frames : list (list PointHighRes) :=
  map frame (range 0 (numFramesInLoop - 1)).

(** The polling loop for one device, lines 80-91: up to [attempts] polls;
    status 1 writes the frame and stops, a negative status stops. *)
Fixpoint pollAndWrite (attempts : nat) (d : DAC) (j : Z)
    (points : list PointHighRes) : cgo unit :=
  match attempts with
  | O => Ret tt
  | S attempts' =>
      Cgo.bind (GetStatus d j) (fun status =>
        if status =? 1
        then Cgo.bind (WriteFrameHighResolution d j pointsPerSecond 0 points)
                      (fun _ => Ret tt)
        else if status <? 0 then Ret tt
        else pollAndWrite attempts' d j points)
  end.

End Simple.

(** ** Canonical binary64 representations, for the proofs *)
Module SF.

(** The 53-bit mantissa of a positive integer below [2 ^ 53]. *)
Definition norm53 (m : positive) : positive :=
  Z.to_pos (Z.pos m * 2 ^ (53 - Z.pos (digits2_pos m))).

(** The binary64 value of an integer of magnitude below [2 ^ 53]. *)
Definition SFofZ (z : Z) : spec_float :=
  match z with
  | 0 => S754_zero false
  | Z.pos p => S754_finite false (norm53 p) (Z.pos (digits2_pos p) - 53)
  | Z.neg p => S754_finite true (norm53 p) (Z.pos (digits2_pos p) - 53)
  end.

End SF.

(** ** Vocabulary of the properties *)
Module Spec.
Import helios.

(** The colour [GenerateLine] gives every sample: that of the end point
    when the laser is on, none when it is off. *)
Definition line_colour (stop : Point) (on : bool) (p : Point) : Prop :=
  if on then R p = R stop /\ G p = G stop /\ B p = B stop /\ I p = I stop
  else blanked p.

(** [k] end-to-end replicas of a sequence. *)
Fixpoint copies {A : Type} (k : nat) (l : list A) : list A :=
  match k with
  | O => []
  | S k' => copies k' l ++ l
  end.

(** A sample of the visible ring: every channel at full scale. *)
Definition lit (p : Point) : Prop :=
  R p = 255 /\ G p = 255 /\ B p = 255 /\ I p = 255.

(** A run of the replay loop against a monotonic clock that has reached
    [lo]: in each firing of the ticker the clock is read for [time.Since],
    then each device is polled, then the clock is read for [time.Now]. *)
Fixpoint clock_monotone (lo : Z) (events : list Dot.event) : Prop :=
  match events with
  | [] => True
  | Dot.Interrupt :: rest => clock_monotone lo rest
  | Dot.Ticker t :: rest =>
      lo <= Dot.sinceAt t
      /\ Forall (fun p => Dot.sinceAt t <= snd p <= Dot.nowAt t) (Dot.polls t)
      /\ Dot.sinceAt t <= Dot.nowAt t
      /\ clock_monotone (Dot.nowAt t) rest
  end.

(** The run has one device, which answers "ready" at every poll. *)
Definition one_ready_device (events : list Dot.event) : Prop :=
  Forall (fun e => match e with
                   | Dot.Interrupt => True
                   | Dot.Ticker t => exists at_, Dot.polls t = [(1, at_)]
                   end) events.

(** Two writes of one run, the first before the second, never come closer
    than [gap] on the same device. *)
Definition spaced (gap : Z) (writes : list Dot.Write) : Prop :=
  ForallOrdPairs
    (fun w1 w2 => Dot.device w1 = Dot.device w2 ->
                  gap <= Dot.writeAt w2 - Dot.writeAt w1) writes.





(** A list of integers that never decreases. *)
Fixpoint nondecreasing (l : list Z) : bool :=
  match l with
  | a :: (b :: _) as rest => (a <=? b) && nondecreasing rest
  | _ => true
  end.

(** The sweep of [examples/simple]: up to full scale, then back down. *)
Definition sweep (j : Z) : Z :=
  if j <? 750 then j * 65535 / 750 else 65535 - (j - 750) * 65535 / 750.


End Spec.

(* ================================================================== *)
(** * Part II: properties                                              *)
(* ================================================================== *)

Import F64 helios SF.

(** ** Loops over integer ranges *)

Lemma range_from_length (n : nat) (lo : Z) : length (range_from lo n) = n.
Proof.
  revert lo; induction n as [|n IH]; intros lo; simpl; [reflexivity|].
  now rewrite IH.
Qed.

Lemma range_length (lo hi : Z) : length (range lo hi) = Z.to_nat (hi - lo + 1).
Proof. apply range_from_length. Qed.

Lemma range_from_In (n : nat) (lo z : Z) :
  lo <= z < lo + Z.of_nat n -> In z (range_from lo n).
Proof.
  revert lo; induction n as [|n IH]; intros lo Hz; simpl.
  - lia.
  - destruct (Z.eq_dec lo z) as [->|Hne]; [now left|right].
    apply IH; lia.
Qed.

Lemma range_In (lo hi z : Z) : lo <= z <= hi -> In z (range lo hi).
Proof. intros Hz; apply range_from_In; lia. Qed.

Lemma range_from_snoc (n : nat) (lo : Z) :
  range_from lo (S n) = range_from lo n ++ [lo + Z.of_nat n].
Proof.
  revert lo; induction n as [|n IH]; intros lo.
  - simpl; now rewrite Z.add_0_r.
  - change (range_from lo (S (S n))) with (lo :: range_from (lo + 1) (S n)).
    rewrite IH; simpl; do 3 f_equal; lia.
Qed.

(** ** The travel planner *)

Lemma travelPoints_pos (sx sy ex ey : float) (pps : Z) :
  1 <= Dot.travelPoints sx sy ex ey pps.
Proof.
  unfold Dot.travelPoints.
  destruct (_ <? 1) eqn:E; [lia | apply Z.ltb_ge in E; exact E].
Qed.

Lemma settlePoints_pos (pps : Z) : 1 <= Dot.settlePoints pps.
Proof.
  unfold Dot.settlePoints.
  destruct (_ <? 1) eqn:E; [lia | apply Z.ltb_ge in E; exact E].
Qed.

(** [uint16(float64(z))] gives [z] back on the 12-bit coordinate range:
    checked on each of the 4096 values. *)
Lemma to_uint16_of_int_table :
  forallb (fun z => to_uint16 (of_int z) =? z) (range 0 4095) = true.
Proof. vm_compute; reflexivity. Qed.

Lemma to_uint16_of_int (z : Z) : 0 <= z <= 4095 -> to_uint16 (of_int z) = z.
Proof.
  intros Hz.
  pose proof (proj1 (forallb_forall _ _) to_uint16_of_int_table z
                (range_In 0 4095 z Hz)) as H.
  now apply Z.eqb_eq in H.
Qed.

Lemma travelPoint_blanked (sx sy ex ey : float) (n k : Z) :
  blanked (Dot.travelPoint sx sy ex ey n k).
Proof. repeat split. Qed.

Lemma getTravelPoints_split (sx sy ex ey : float) (pps : Z) :
  Dot.getTravelPoints sx sy ex ey pps
  = map (Dot.travelPoint sx sy ex ey (Dot.travelPoints sx sy ex ey pps))
        (range 1 (Dot.travelPoints sx sy ex ey pps))
    ++ repeat (mkPoint (to_uint16 ex) (to_uint16 ey) 0 0 0 0)
              (Z.to_nat (Dot.settlePoints pps)).
Proof. reflexivity. Qed.

Lemma transition_length (sx sy ex ey : float) (pps : Z) :
  length (map (Dot.travelPoint sx sy ex ey (Dot.travelPoints sx sy ex ey pps))
              (range 1 (Dot.travelPoints sx sy ex ey pps)))
  = Z.to_nat (Dot.travelPoints sx sy ex ey pps).
Proof.
  rewrite length_map, range_length. f_equal. lia.
Qed.

Lemma getTravelPoints_blanked (sx sy ex ey : float) (pps : Z) :
  Forall blanked (Dot.getTravelPoints sx sy ex ey pps).
Proof.
  rewrite getTravelPoints_split. apply Forall_app; split.
  - apply Forall_map, Forall_forall; intros k _; apply travelPoint_blanked.
  - apply Forall_forall; intros p Hp; apply repeat_spec in Hp; subst p.
    unfold blanked; cbn [R G B I]. auto.
Qed.

Lemma getTravelPoints_length (sx sy ex ey : float) (pps : Z) :
  Z.of_nat (length (Dot.getTravelPoints sx sy ex ey pps))
  = Dot.travelPoints sx sy ex ey pps + Dot.settlePoints pps.
Proof.
  rewrite getTravelPoints_split, length_app, transition_length, repeat_length.
  pose proof (travelPoints_pos sx sy ex ey pps).
  pose proof (settlePoints_pos pps). lia.
Qed.

(** C1.  For every start position, every end position with integer
    coordinates in [0, 4095] and every rate, [getTravelPoints] returns a
    transition of at least one sample followed by a settling dwell of at
    least one sample, hence at least 2 samples; every sample (the first
    one included) has all colour channels zero, and every settling sample
    is the blanked sample at exactly the end position. *)
Theorem getTravelPoints_segment (startX startY : float) (ex ey pps : Z) :
  0 <= ex <= 4095 -> 0 <= ey <= 4095 ->
  let points := Dot.getTravelPoints startX startY (of_int ex) (of_int ey) pps in
  (exists transition settle : list Point,
      points = transition ++ settle
      /\ Z.of_nat (length transition)
         = Dot.travelPoints startX startY (of_int ex) (of_int ey) pps
      /\ Z.of_nat (length settle) = Dot.settlePoints pps
      /\ 1 <= Z.of_nat (length transition)
      /\ 1 <= Z.of_nat (length settle)
      /\ Forall (fun p => p = mkPoint ex ey 0 0 0 0) settle)
  /\ 2 <= Z.of_nat (length points)
  /\ Forall blanked points
  /\ (exists p rest, points = p :: rest /\ blanked p).
Proof.
  intros Hx Hy points.
  pose proof (travelPoints_pos startX startY (of_int ex) (of_int ey) pps) as Hn.
  pose proof (settlePoints_pos pps) as Hs.
  pose proof (getTravelPoints_length startX startY (of_int ex) (of_int ey) pps) as Hlen.
  pose proof (getTravelPoints_blanked startX startY (of_int ex) (of_int ey) pps) as Hb.
  fold points in Hlen, Hb.
  split; [|split; [lia|split; [exact Hb|]]].
  - eexists; eexists; split; [apply getTravelPoints_split|].
    rewrite transition_length, repeat_length.
    split; [lia|]. split; [lia|]. split; [lia|]. split; [lia|].
    apply Forall_forall; intros p Hp; apply repeat_spec in Hp; subst p.
    rewrite (to_uint16_of_int ex Hx), (to_uint16_of_int ey Hy); reflexivity.
  - destruct points as [|p rest].
    + cbn [length] in Hlen; lia.
    + exists p, rest; split; [reflexivity|].
      apply (Forall_inv Hb).
Qed.

Lemma getTravelPoints_segment_witness :
  0 <= 2132 <= 4095 /\ 0 <= 2048 <= 4095 /\
  let points :=
    Dot.getTravelPoints (of_int 2048) (of_int 2048) (of_int 2132) (of_int 2048) 50000 in
  (exists transition settle : list Point,
      points = transition ++ settle
      /\ Z.of_nat (length transition)
         = Dot.travelPoints (of_int 2048) (of_int 2048) (of_int 2132) (of_int 2048) 50000
      /\ Z.of_nat (length settle) = Dot.settlePoints 50000
      /\ 1 <= Z.of_nat (length transition)
      /\ 1 <= Z.of_nat (length settle)
      /\ Forall (fun p => p = mkPoint 2132 2048 0 0 0 0) settle)
  /\ 2 <= Z.of_nat (length points)
  /\ Forall blanked points
  /\ (exists p rest, points = p :: rest /\ blanked p).
Proof.
  split; [lia|]. split; [lia|].
  apply (getTravelPoints_segment (of_int 2048) (of_int 2048) 2132 2048 50000); lia.
Defined.

(** ** The dwell generator *)

Lemma numPoints_pos (duration : Duration) : 1 <= Pattern.numPoints duration.
Proof.
  unfold Pattern.numPoints.
  destruct (_ <? 1) eqn:E; [lia | apply Z.ltb_ge in E; exact E].
Qed.

Lemma map_const_repeat {A B : Type} (b : B) (l : list A) :
  map (fun _ => b) l = repeat b (length l).
Proof.
  induction l as [|a l IH]; [reflexivity|].
  cbn [map length repeat]; now rewrite IH.
Qed.

Lemma GenerateDwell_repeat (pos : Point) (duration : Duration) (on : bool) :
  Pattern.GenerateDwell pos duration on
  = repeat (Pattern.dwellPoint pos on) (Z.to_nat (Pattern.numPoints duration)).
Proof.
  unfold Pattern.GenerateDwell.
  rewrite map_const_repeat, range_length.
  do 2 f_equal; lia.
Qed.

(** C2, as the code has it.  [GenerateDwell] works at the fixed rate
    [PPS = 30000] and returns [n] copies of one sample, where [n] is the
    [float64] product [float64(PPS) * duration.Seconds()] truncated toward
    zero (not rounded up) and raised to 1; the sample is [pos] itself when
    [on] is true, and [pos] with all four colour channels zero when [on]
    is false. *)
Theorem GenerateDwell_truncates (pos : Point) (duration : Duration) (on : bool) :
  let n := Pattern.numPoints duration in
  Pattern.GenerateDwell pos duration on
  = repeat (if on then pos else mkPoint (X pos) (Y pos) 0 0 0 0) (Z.to_nat n)
  /\ Z.of_nat (length (Pattern.GenerateDwell pos duration on)) = n
  /\ n = Z.max 1 (to_int64 (of_int Pattern.PPS * Seconds duration)%float)
  /\ Forall (fun p => X p = X pos /\ Y p = Y pos /\
                      if on then p = pos else blanked p)
            (Pattern.GenerateDwell pos duration on).
Proof.
  intros n.
  pose proof (numPoints_pos duration) as Hn. fold n in Hn.
  rewrite GenerateDwell_repeat. fold n.
  split; [reflexivity|].
  split; [rewrite repeat_length; lia|].
  split.
  - unfold n, Pattern.numPoints.
    destruct (_ <? 1) eqn:E; [apply Z.ltb_lt in E | apply Z.ltb_ge in E]; lia.
  - apply Forall_forall; intros p Hp; apply repeat_spec in Hp; subst p.
    unfold Pattern.dwellPoint; destruct on; cbn [X Y];
      repeat split; reflexivity.
Qed.

(** C2 fails as stated: a dwell of 50 microseconds at 30000 points per
    second is 1.5 sample periods; the code returns 1 sample where rounding
    up (of the exact product, or of the [float64] product) gives 2. *)
Lemma GenerateDwell_not_ceil :
  length (Pattern.GenerateDwell (mkPoint 2048 3500 0 255 0 255)
                                (50 * Microsecond) true) = 1%nat
  /\ (of_int Pattern.PPS * Seconds (50 * Microsecond)%Z)%float = 1.5%float
  /\ to_int64 (Ceil (of_int Pattern.PPS * Seconds (50 * Microsecond)%Z)%float) = 2
  /\ - ((- (50 * Microsecond * Pattern.PPS)) / Second) = 2.
Proof. vm_compute. repeat split. Qed.

(** ** Buffer padding *)

Lemma copies_length {A : Type} (k : nat) (l : list A) :
  Z.of_nat (length (Spec.copies k l)) = Z.of_nat k * Z.of_nat (length l).
Proof.
  induction k as [|k IH]; [reflexivity|].
  cbn [Spec.copies]. rewrite length_app. lia.
Qed.

Lemma copies_In {A : Type} (k : nat) (l : list A) (a : A) :
  (1 <= k)%nat -> In a l -> In a (Spec.copies k l).
Proof.
  intros Hk Ha. destruct k as [|k]; [lia|].
  cbn [Spec.copies]. apply in_or_app; now right.
Qed.

Lemma padLoop_copies (fuel : nat) (singleLoop : list Point) :
  singleLoop <> [] ->
  forall j : nat,
    (1 <= j)%nat -> (1 <= fuel)%nat ->
    Dot.targetBufferPoints - Z.of_nat j * Z.of_nat (length singleLoop) < Z.of_nat fuel ->
    exists k : nat,
      (j <= k)%nat
      /\ Dot.padLoop fuel singleLoop (Spec.copies j singleLoop)
         = Some (Spec.copies k singleLoop)
      /\ Dot.targetBufferPoints <= Z.of_nat k * Z.of_nat (length singleLoop)
      /\ (k = j \/
          (Z.of_nat k - 1) * Z.of_nat (length singleLoop) < Dot.targetBufferPoints).
Proof.
  intros Hne.
  assert (Hlen : 1 <= Z.of_nat (length singleLoop)).
  { destruct singleLoop; [congruence | cbn [length]; lia]. }
  induction fuel as [|fuel IH]; intros j Hj Hpos Hfuel.
  - lia.
  - cbn [Dot.padLoop]. rewrite copies_length.
    destruct (_ <? Dot.targetBufferPoints) eqn:E.
    + apply Z.ltb_lt in E.
      destruct (IH (S j)) as (k & Hk & Hrun & Hge & Hmin);
        [lia | lia | rewrite Nat2Z.inj_succ; lia |].
      cbn [Spec.copies] in Hrun.
      exists k. split; [lia|]. split; [exact Hrun|]. split; [exact Hge|].
      right. destruct Hmin as [-> | Hmin]; [|exact Hmin].
      replace (Z.of_nat (S j) - 1) with (Z.of_nat j) by lia. exact E.
    + apply Z.ltb_ge in E.
      exists j. split; [lia|]. split; [reflexivity|]. split; [exact E|]. now left.
Qed.

(** C4.  For a non-empty compiled sequence the padding loop terminates
    (any fuel of at least 2000 iterations is enough, and the result does
    not depend on it) with [k >= 1] whole end-to-end replicas of the
    sequence: a sequence already at or above the target of 2000 is left
    unchanged ([k = 1]); otherwise [k] is the least number of replicas
    whose total length reaches the target. *)
Theorem fillBuffer_replicates (points : list Point) :
  points <> [] ->
  exists k : nat,
    (1 <= k)%nat
    /\ (forall fuel : nat, (2000 <= fuel)%nat ->
          Dot.fillBuffer fuel points = Some (Spec.copies k points))
    /\ Dot.targetBufferPoints <= Z.of_nat (length (Spec.copies k points))
    /\ (Dot.targetBufferPoints <= Z.of_nat (length points) ->
        k = 1%nat /\ Spec.copies k points = points)
    /\ (Z.of_nat (length points) < Dot.targetBufferPoints ->
        (2 <= k)%nat
        /\ Z.of_nat (length (Spec.copies (k - 1) points)) < Dot.targetBufferPoints).
Proof.
  intros Hne.
  assert (Hlen : 1 <= Z.of_nat (length points)).
  { destruct points; [congruence | cbn [length]; lia]. }
  destruct (padLoop_copies 2000 points Hne 1) as (k & Hk & Hrun & Hge & Hmin);
    [lia | lia | unfold Dot.targetBufferPoints; lia |].
  exists k. split; [exact Hk|].
  assert (Hall : forall fuel : nat, (2000 <= fuel)%nat ->
            Dot.fillBuffer fuel points = Some (Spec.copies k points)).
  { intros fuel Hfuel.
    destruct (padLoop_copies fuel points Hne 1) as (k' & Hk' & Hrun' & Hge' & Hmin');
      [lia | lia | unfold Dot.targetBufferPoints; lia |].
    unfold Dot.fillBuffer.
    change points with (Spec.copies 1 points) at 2. rewrite Hrun'.
    do 2 f_equal.
    destruct Hmin as [-> | Hmin]; destruct Hmin' as [-> | Hmin']; try reflexivity; nia. }
  split; [exact Hall|].
  rewrite !copies_length.
  split; [exact Hge|].
  split.
  - intros Hbig.
    assert (k = 1%nat) as -> by (destruct Hmin as [-> | Hmin]; [reflexivity | nia]).
    split; reflexivity.
  - intros Hsmall.
    assert (2 <= k)%nat by nia.
    split; [assumption|].
    destruct Hmin as [-> | Hmin]; [lia|].
    replace (Z.of_nat (k - 1)) with (Z.of_nat k - 1) by lia. exact Hmin.
Qed.

Lemma fillBuffer_replicates_witness :
  [mkPoint 1 2 0 0 0 0] <> [] /\
  exists k : nat,
    (1 <= k)%nat
    /\ (forall fuel : nat, (2000 <= fuel)%nat ->
          Dot.fillBuffer fuel [mkPoint 1 2 0 0 0 0]
          = Some (Spec.copies k [mkPoint 1 2 0 0 0 0]))
    /\ Dot.targetBufferPoints
       <= Z.of_nat (length (Spec.copies k [mkPoint 1 2 0 0 0 0]))
    /\ (Dot.targetBufferPoints <= Z.of_nat (length [mkPoint 1 2 0 0 0 0]) ->
        k = 1%nat /\ Spec.copies k [mkPoint 1 2 0 0 0 0] = [mkPoint 1 2 0 0 0 0])
    /\ (Z.of_nat (length [mkPoint 1 2 0 0 0 0]) < Dot.targetBufferPoints ->
        (2 <= k)%nat
        /\ Z.of_nat (length (Spec.copies (k - 1) [mkPoint 1 2 0 0 0 0]))
           < Dot.targetBufferPoints).
Proof.
  split; [discriminate|].
  apply (fillBuffer_replicates [mkPoint 1 2 0 0 0 0]); discriminate.
Defined.

(** ** The ring generator *)

Lemma wrap64_id (z : Z) : int64_min <= z <= int64_max -> wrap64 z = z.
Proof.
  unfold wrap64, int64_min, int64_max. intros Hz.
  rewrite Z.mod_small; lia.
Qed.

Lemma ringPts_floor (available travelLen : Z) : 10 <= Dot.ringPts available travelLen.
Proof.
  unfold Dot.ringPts.
  destruct (_ <? 10) eqn:E; [lia | apply Z.ltb_ge in E; exact E].
Qed.

Lemma ringPoint_lit (Cos Sin : float -> float) (cx cy : float) (r n i : Z) :
  Spec.lit (Dot.ringPoint Cos Sin cx cy r n i).
Proof. repeat split. Qed.

(** C5.  [getFeaturePoints] with a budget of at most 10 points (so that
    fewer than 10 are available for drawing) returns the empty sequence,
    the defined failure result.  With a budget of 11 or more it returns the
    blanked travel to the ring followed by a draw segment of
    [max 10 remaining] lit samples, where [remaining] is what the budget
    leaves after the travel: the draw segment is never shorter than 10
    samples, and is exactly the 10-sample minimum when fewer than 10
    remain. *)
Theorem getFeaturePoints_floor (Cos Sin : float -> float) (cx cy : float)
    (dotRadius pointBudget pps : Z) :
  let travel := Dot.ringTravel cx cy dotRadius pps in
  let remaining := pointBudget - 1 - Z.of_nat (length travel) in
  int64_min < pointBudget <= int64_max ->
  int64_min <= remaining ->
  (pointBudget <= 10 ->
   Dot.getFeaturePoints Cos Sin cx cy dotRadius pointBudget pps = [])
  /\ (11 <= pointBudget ->
      exists ring : list Point,
        Dot.getFeaturePoints Cos Sin cx cy dotRadius pointBudget pps = travel ++ ring
        /\ Forall blanked travel
        /\ Forall Spec.lit ring
        /\ 10 <= Z.of_nat (length ring)
        /\ Z.of_nat (length ring) = Z.max 10 remaining).
Proof.
  intros travel remaining Hb Hr.
  assert (Hw : wrap64 (pointBudget - 1) = pointBudget - 1).
  { apply wrap64_id. unfold int64_min, int64_max in *. lia. }
  unfold Dot.getFeaturePoints. rewrite Hw. fold travel.
  split.
  - intros Hsmall.
    destruct (_ <? 10) eqn:E; [reflexivity | apply Z.ltb_ge in E; lia].
  - intros Hbig.
    destruct (pointBudget - 1 <? 10) eqn:E; [apply Z.ltb_lt in E; lia|].
    eexists. split; [reflexivity|].
    split; [apply getTravelPoints_blanked|].
    split.
    { apply Forall_map, Forall_forall; intros i _; apply ringPoint_lit. }
    pose proof (ringPts_floor (pointBudget - 1) (Z.of_nat (length travel))) as Hfloor.
    rewrite length_map, range_length.
    replace (Z.of_nat (Z.to_nat (Dot.ringPts (pointBudget - 1) (Z.of_nat (length travel)) - 1 + 1)))
      with (Dot.ringPts (pointBudget - 1) (Z.of_nat (length travel))) by lia.
    split; [exact Hfloor|].
    unfold Dot.ringPts. unfold remaining in *.
    rewrite wrap64_id by (unfold int64_min, int64_max in *; lia).
    destruct (Z.ltb_spec (pointBudget - 1 - Z.of_nat (length travel)) 10); lia.
Qed.

Lemma getFeaturePoints_floor_witness :
  let Cos := fun _ : float => 1%float in
  let Sin := fun _ : float => 0%float in
  let travel := Dot.ringTravel (of_int 2048) (of_int 2048) 84 50000 in
  let remaining := 11 - 1 - Z.of_nat (length travel) in
  int64_min < 11 <= int64_max /\
  int64_min <= remaining /\
  (11 <= 10 ->
   Dot.getFeaturePoints Cos Sin (of_int 2048) (of_int 2048) 84 11 50000 = [])
  /\ (11 <= 11 ->
      exists ring : list Point,
        Dot.getFeaturePoints Cos Sin (of_int 2048) (of_int 2048) 84 11 50000
        = travel ++ ring
        /\ Forall blanked travel
        /\ Forall Spec.lit ring
        /\ 10 <= Z.of_nat (length ring)
        /\ Z.of_nat (length ring) = Z.max 10 remaining).
Proof.
  intros Cos Sin travel remaining.
  assert (Hb : int64_min < 11 <= int64_max) by (unfold int64_min, int64_max; lia).
  assert (Hr : int64_min <= remaining).
  { unfold remaining, travel, Dot.ringTravel.
    rewrite getTravelPoints_length.
    pose proof (travelPoints_pos (of_int 2048) (of_int 2048)
      (of_int (X (mkPoint (to_uint16 (of_int 2048 + of_int 84)%float)
                          (to_uint16 (of_int 2048)) 0 0 0 0)))
      (of_int (Y (mkPoint (to_uint16 (of_int 2048 + of_int 84)%float)
                          (to_uint16 (of_int 2048)) 0 0 0 0))) 50000).
    vm_compute. discriminate. }
  split; [exact Hb|]. split; [exact Hr|].
  exact (getFeaturePoints_floor Cos Sin (of_int 2048) (of_int 2048) 84 11 50000 Hb Hr).
Defined.

(** ** Frame assembly *)

Lemma getTravelPoints_settle_In (sx sy ex ey : float) (pps : Z) :
  In (mkPoint (to_uint16 ex) (to_uint16 ey) 0 0 0 0)
     (Dot.getTravelPoints sx sy ex ey pps).
Proof.
  rewrite getTravelPoints_split. apply in_or_app; right.
  pose proof (settlePoints_pos pps) as Hs.
  destruct (Z.to_nat (Dot.settlePoints pps)) as [|n] eqn:E; [lia|].
  cbn [repeat]. left. reflexivity.
Qed.

Lemma compilePoints_feature_In (Cos Sin : float -> float) (x y radius pps : Z)
    (p : Point) :
  In p (Dot.getFeaturePoints Cos Sin (of_int x) (of_int y) radius
          (Dot.featureBudget pps) pps) ->
  In p (Dot.compilePoints Cos Sin x y radius pps).
Proof.
  intros Hp. unfold Dot.compilePoints.
  destruct (rev _) as [|lastPt rest]; [exact Hp|].
  apply in_or_app; left; exact Hp.
Qed.

Lemma fillBuffer_In (points : list Point) (p : Point) :
  In p points ->
  exists frame : list Point,
    Dot.fillBuffer 2000 points = Some frame /\ In p frame.
Proof.
  intros Hp.
  assert (Hne : points <> []) by (intros ->; destruct Hp).
  assert (Hlen : 1 <= Z.of_nat (length points)).
  { destruct points; [congruence | cbn [length]; lia]. }
  destruct (padLoop_copies 2000 points Hne 1) as (k & Hk & Hrun & _);
    [lia | lia | unfold Dot.targetBufferPoints; lia |].
  exists (Spec.copies k points). split; [exact Hrun|].
  apply copies_In; [exact Hk | exact Hp].
Qed.

(** C3 does not hold of the code.  [main] checks the centre only: with the
    centre at x = 4095 (accepted) and the default radius 84 and rate
    50000, the frame it assembles holds a sample at X = 4179, beyond
    [galvoMaxCoord = 4095], whatever [math.Cos] and [math.Sin] return. *)
Theorem compileFrame_leaves_galvo_range (Cos Sin : float -> float) :
  Dot.centreInBounds 4095 2048 = true
  /\ Dot.galvoMaxCoord < 4179
  /\ exists frame : list Point,
       Dot.compileFrame Cos Sin 2000 4095 2048 84 Dot.defaultPPS = Dot.Frame frame
       /\ In (mkPoint 4179 2048 0 0 0 0) frame.
Proof.
  split; [vm_compute; reflexivity|].
  split; [vm_compute; reflexivity|].
  assert (Hin : In (mkPoint 4179 2048 0 0 0 0)
                   (Dot.compilePoints Cos Sin 4095 2048 84 Dot.defaultPPS)).
  { apply compilePoints_feature_In.
    unfold Dot.getFeaturePoints.
    replace (wrap64 (Dot.featureBudget Dot.defaultPPS - 1) <? 10) with false
      by (vm_compute; reflexivity).
    apply in_or_app; left. unfold Dot.ringTravel.
    replace (mkPoint 4179 2048 0 0 0 0)
      with (mkPoint
              (to_uint16 (of_int (X (mkPoint (to_uint16 (of_int 4095 + of_int 84)%float)
                                             (to_uint16 (of_int 2048)) 0 0 0 0))))
              (to_uint16 (of_int (Y (mkPoint (to_uint16 (of_int 4095 + of_int 84)%float)
                                             (to_uint16 (of_int 2048)) 0 0 0 0))))
              0 0 0 0)
      by (vm_compute; reflexivity).
    apply getTravelPoints_settle_In. }
  destruct (fillBuffer_In _ _ Hin) as (frame & Hrun & Hframe).
  exists frame. split; [|exact Hframe].
  unfold Dot.compileFrame.
  replace (Dot.centreInBounds 4095 2048) with true by (vm_compute; reflexivity).
  rewrite Hrun. reflexivity.
Qed.

(** ** The binding *)

(** C9.  Each of [WriteFrame], [WriteFrameHighResolution] and
    [WriteFrameExtended], called with an empty slice, returns 0 without
    calling into C: it makes no call, and run against any device it leaves
    the state of the world as it was. *)
Theorem WriteFrame_empty (d : DAC) (deviceIndex pps flags : Z) :
  (WriteFrame d deviceIndex pps flags [] = Ret 0
   /\ WriteFrameHighResolution d deviceIndex pps flags [] = Ret 0
   /\ WriteFrameExtended d deviceIndex pps flags [] = Ret 0)
  /\ (forall answer : ccall -> Z,
        calls answer (WriteFrame d deviceIndex pps flags []) = []
        /\ calls answer (WriteFrameHighResolution d deviceIndex pps flags []) = []
        /\ calls answer (WriteFrameExtended d deviceIndex pps flags []) = [])
  /\ (forall (W : Type) (dev : W -> ccall -> W * Z) (w : W),
        run dev (WriteFrame d deviceIndex pps flags []) w = (w, 0)
        /\ run dev (WriteFrameHighResolution d deviceIndex pps flags []) w = (w, 0)
        /\ run dev (WriteFrameExtended d deviceIndex pps flags []) w = (w, 0)).
Proof.
  split; [|split]; intros; repeat split.
Qed.

(** ** The easing curve *)






(** ** The replay loop *)

Lemma ForallOrdPairs_app {A : Type} (R : A -> A -> Prop) (l1 l2 : list A) :
  ForallOrdPairs R l1 -> ForallOrdPairs R l2 ->
  (forall x y, In x l1 -> In y l2 -> R x y) ->
  ForallOrdPairs R (l1 ++ l2).
Proof.
  intros H1 H2 H12. induction H1 as [|a l Ha Hl IH]; [exact H2|].
  cbn [app]. constructor.
  - apply Forall_app; split; [exact Ha|].
    apply Forall_forall; intros y Hy. apply H12; [left; reflexivity | exact Hy].
  - apply IH. intros x y Hx Hy. apply H12; [right; exact Hx | exact Hy].
Qed.

Lemma pollDevices_devices (polls : list (Z * Z)) (i : Z) :
  Forall (fun w => i <= Dot.device w) (Dot.pollDevices i polls)
  /\ ForallOrdPairs (fun w1 w2 => Dot.device w1 < Dot.device w2)
                    (Dot.pollDevices i polls).
Proof.
  revert i; induction polls as [|[status at_] rest IH]; intros i; cbn [Dot.pollDevices].
  - split; constructor.
  - destruct (IH (i + 1)) as [Hlow Hinc].
    assert (Hlow' : Forall (fun w => i <= Dot.device w) (Dot.pollDevices (i + 1) rest)).
    { eapply Forall_impl; [|exact Hlow]. intros w Hw; cbn beta in Hw; lia. }
    destruct (status =? 1).
    + split.
      * constructor; [cbn [Dot.device]; lia | exact Hlow'].
      * constructor; [|exact Hinc].
        eapply Forall_impl; [|exact Hlow]. intros w Hw; cbn [Dot.device]; cbn beta in Hw; lia.
    + split; [exact Hlow' | exact Hinc].
Qed.

Lemma pollDevices_times (polls : list (Z * Z)) (i lo hi : Z) :
  Forall (fun p => lo <= snd p <= hi) polls ->
  Forall (fun w => lo <= Dot.writeAt w <= hi) (Dot.pollDevices i polls).
Proof.
  revert i; induction polls as [|[status at_] rest IH]; intros i Hp;
    cbn [Dot.pollDevices]; [constructor|].
  inversion Hp as [|p l Hhd Htl]; subst.
  destruct (status =? 1); [constructor; [exact Hhd|]|]; apply IH; exact Htl.
Qed.

Lemma replayLoop_spaced (minReplay : Duration) (events : list Dot.event) :
  forall (lastWriteTime : option Z) (lo : Z),
    (forall l, lastWriteTime = Some l -> l <= lo) ->
    Spec.clock_monotone lo events ->
    Spec.spaced minReplay (Dot.replayLoop minReplay lastWriteTime events)
    /\ Forall (fun w => forall l, lastWriteTime = Some l ->
                                  minReplay <= Dot.writeAt w - l)
              (Dot.replayLoop minReplay lastWriteTime events).
Proof.
  induction events as [|e rest IH]; intros lastWriteTime lo Hlast Hclock.
  - split; constructor.
  - destruct e as [|t]; [split; constructor|].
    cbn [Spec.clock_monotone] in Hclock.
    destruct Hclock as (Hlo & Hpolls & Hsn & Hrest).
    cbn [Dot.replayLoop]. unfold Dot.onTick.
    destruct (Z.ltb_spec (Dot.Since (Dot.sinceAt t) lastWriteTime) minReplay) as [Hearly|Hdue].
    + cbn [app]. apply (IH lastWriteTime (Dot.nowAt t)); [|exact Hrest].
      intros l Hl. specialize (Hlast l Hl). lia.
    + pose proof (pollDevices_devices (Dot.polls t) 0) as [_ Hinc].
      pose proof (pollDevices_times (Dot.polls t) 0 _ _ Hpolls) as Htimes.
      destruct (Dot.pollDevices 0 (Dot.polls t)) as [|w ws] eqn:Ew.
      * cbn [app]. apply (IH lastWriteTime (Dot.nowAt t)); [|exact Hrest].
        intros l Hl. specialize (Hlast l Hl). lia.
      * destruct (IH (Some (Dot.nowAt t)) (Dot.nowAt t)) as [IHs IHl];
          [intros l Hl; injection Hl as <-; lia | exact Hrest |].
        assert (Hdue' : Forall (fun w0 => forall l, lastWriteTime = Some l ->
                                  minReplay <= Dot.writeAt w0 - l) (w :: ws)).
        { eapply Forall_impl; [|exact Htimes]. intros w0 Hw0 l Hl; cbn beta in Hw0.
          subst lastWriteTime. cbn [Dot.Since] in Hdue. lia. }
        split.
        -- apply ForallOrdPairs_app.
           ++ unfold Spec.spaced.
              clear - Hinc. induction Hinc as [|a l Ha Hl IHl]; constructor.
              ** eapply Forall_impl; [|exact Ha]. intros b Hb Heq; cbn beta in Hb; lia.
              ** exact IHl.
           ++ exact IHs.
           ++ intros x y Hx Hy _.
              pose proof (proj1 (Forall_forall _ _) Htimes x Hx) as Hxt.
              pose proof (proj1 (Forall_forall _ _) IHl y Hy (Dot.nowAt t) eq_refl) as Hyt.
              cbn beta in Hxt. lia.
        -- apply Forall_app; split; [exact Hdue'|].
           eapply Forall_impl; [|exact IHl]. intros w0 Hw0 l Hl; cbn beta in Hw0.
           specialize (Hw0 (Dot.nowAt t) eq_refl). specialize (Hlast l Hl). lia.
Qed.

Lemma replayLoop_one_device (minReplay : Duration) (events : list Dot.event) :
  Spec.one_ready_device events ->
  forall lastWriteTime : option Z,
    Forall (fun w => Dot.device w = 0)
           (Dot.replayLoop minReplay lastWriteTime events).
Proof.
  induction 1 as [|e rest He Hrest IH]; intros lastWriteTime; [constructor|].
  destruct e as [|t]; [constructor|].
  cbn [Dot.replayLoop]. unfold Dot.onTick.
  destruct (_ <? minReplay); [apply IH|].
  destruct He as [at_ ->]. cbn [Dot.pollDevices Z.eqb Pos.eqb app].
  constructor; [reflexivity | apply IH].
Qed.

Lemma ForallOrdPairs_impl_In {A : Type} (R S : A -> A -> Prop) (l : list A) :
  (forall x y, In x l -> In y l -> R x y -> S x y) ->
  ForallOrdPairs R l -> ForallOrdPairs S l.
Proof.
  intros Himp H. induction H as [|a l Ha Hl IH]; constructor.
  - apply Forall_forall; intros y Hy.
    apply Himp; [left; reflexivity | right; exact Hy |].
    exact (proj1 (Forall_forall _ _) Ha y Hy).
  - apply IH. intros x y Hx Hy. apply Himp; right; assumption.
Qed.

(** C6.  In every run of the replay loop against a monotonic clock, two
    writes to the same device are never less than [minReplayInterval]
    apart, where [minReplayInterval] is the code's
    [time.Duration(float64(frameDuration) * 0.9)] and [frameDuration] the
    frame's length over the rate, as the code computes them (in whole
    nanoseconds).  Against one always-ready device these are all the
    writes: no two of them are less than that apart. *)
Theorem replayLoop_min_interval (frameLen pps : Z) (events : list Dot.event) :
  Spec.clock_monotone 0 events ->
  let minReplay := Dot.minReplayInterval (Dot.frameDuration frameLen pps) in
  Spec.spaced minReplay (Dot.replayLoop minReplay None events)
  /\ (Spec.one_ready_device events ->
      ForallOrdPairs (fun w1 w2 => minReplay <= Dot.writeAt w2 - Dot.writeAt w1)
                     (Dot.replayLoop minReplay None events)).
Proof.
  intros Hclock minReplay.
  pose proof (replayLoop_spaced minReplay events None 0) as [Hs _];
    [discriminate | exact Hclock |].
  split; [exact Hs|].
  intros Hone.
  pose proof (replayLoop_one_device minReplay events Hone None) as Hdev.
  eapply ForallOrdPairs_impl_In; [|exact Hs].
  intros x y Hx Hy Hxy. apply Hxy.
  rewrite (proj1 (Forall_forall _ _) Hdev x Hx).
  rewrite (proj1 (Forall_forall _ _) Hdev y Hy). reflexivity.
Qed.

Lemma replayLoop_min_interval_witness :
  let events :=
    [Dot.Ticker (Dot.mkTick 1000000 [(1, 1000200)] 1000900);
     Dot.Ticker (Dot.mkTick 2000000 [(1, 2000200)] 2000900);
     Dot.Ticker (Dot.mkTick 46000000 [(1, 46000200)] 46000900)] in
  let minReplay := Dot.minReplayInterval (Dot.frameDuration 2484 50000) in
  Spec.clock_monotone 0 events
  /\ Dot.replayLoop minReplay None events
     = [Dot.mkWrite 0 1000200; Dot.mkWrite 0 46000200]
  /\ Spec.spaced minReplay (Dot.replayLoop minReplay None events)
  /\ (Spec.one_ready_device events ->
      ForallOrdPairs (fun w1 w2 => minReplay <= Dot.writeAt w2 - Dot.writeAt w1)
                     (Dot.replayLoop minReplay None events)).
Proof.
  intros events minReplay.
  assert (Hclock : Spec.clock_monotone 0 events).
  { cbn [Spec.clock_monotone events Dot.sinceAt Dot.nowAt Dot.polls].
    repeat match goal with
           | |- _ /\ _ => split
           | |- Forall _ _ => constructor
           | |- True => exact Logic.I
           end; cbn [snd]; lia. }
  split; [exact Hclock|].
  split; [vm_compute; reflexivity|].
  exact (replayLoop_min_interval 2484 50000 events Hclock).
Defined.

(** ** The producer / consumer pipeline *)






(** ** Exact [float64] arithmetic on integers *)

Lemma digits2_bounds (p : positive) :
  2 ^ (Z.pos (digits2_pos p) - 1) <= Z.pos p < 2 ^ Z.pos (digits2_pos p).
Proof.
  induction p as [p IH|p IH|]; cbn [digits2_pos].
  - rewrite Pos2Z.inj_succ, Z.pow_succ_r by lia.
    replace (Z.succ (Z.pos (digits2_pos p)) - 1) with (Z.succ (Z.pos (digits2_pos p) - 1)) by lia.
    rewrite Z.pow_succ_r by lia. lia.
  - rewrite Pos2Z.inj_succ, Z.pow_succ_r by lia.
    replace (Z.succ (Z.pos (digits2_pos p)) - 1) with (Z.succ (Z.pos (digits2_pos p) - 1)) by lia.
    rewrite Z.pow_succ_r by lia. lia.
  - cbn. lia.
Qed.

Lemma digits2_unique (p : positive) (d : Z) :
  2 ^ (d - 1) <= Z.pos p < 2 ^ d -> Z.pos (digits2_pos p) = d.
Proof.
  intros [Hlo Hhi]. pose proof (digits2_bounds p) as [Blo Bhi].
  assert (0 < d).
  { destruct (Z.ltb_spec 0 d); [assumption|].
    assert (2 ^ d <= 2 ^ 0) by (apply Z.pow_le_mono_r; lia). cbn in *. lia. }
  assert (d - 1 < Z.pos (digits2_pos p)).
  { apply (Z.pow_lt_mono_r_iff 2); lia. }
  assert (Z.pos (digits2_pos p) - 1 < d).
  { apply (Z.pow_lt_mono_r_iff 2); lia. }
  lia.
Qed.

Lemma iter_pos_eq {A : Type} (f : A -> A) (p : positive) (x : A) :
  SpecFloat.iter_pos f p x = Pos.iter f x p.
Proof.
  revert x; induction p as [p IH|p IH|]; intros x; cbn [SpecFloat.iter_pos Pos.iter].
  - rewrite !IH. rewrite <- !Pos.iter_swap. reflexivity.
  - rewrite !IH. reflexivity.
  - reflexivity.
Qed.

Lemma pos_iter_xO (d m : positive) : Z.pos (Pos.iter xO m d) = Z.pos m * 2 ^ Z.pos d.
Proof.
  induction d as [|d IH] using Pos.peano_ind.
  - cbn. lia.
  - rewrite Pos.iter_succ, Pos2Z.inj_succ, Z.pow_succ_r by lia.
    rewrite Pos2Z.inj_xO, IH. lia.
Qed.

Lemma shr_1_double (q : Z) :
  shr_1 (Build_shr_record (2 * q) false false) = Build_shr_record q false false.
Proof. destruct q; reflexivity. Qed.

Lemma shr_exact (p : positive) (m : Z) :
  0 <= m ->
  SpecFloat.iter_pos shr_1 p (Build_shr_record (m * 2 ^ Z.pos p) false false)
  = Build_shr_record m false false.
Proof.
  intros Hm. rewrite iter_pos_eq. revert m Hm.
  induction p as [|p IH] using Pos.peano_ind; intros m Hm.
  - cbn [Pos.iter]. replace (m * 2 ^ 1) with (2 * m) by lia. apply shr_1_double.
  - rewrite Pos.iter_succ, <- Pos.iter_swap.
    rewrite Pos2Z.inj_succ, Z.pow_succ_r by lia.
    replace (m * (2 * 2 ^ Z.pos p)) with (2 * (m * 2 ^ Z.pos p)) by lia.
    rewrite shr_1_double.
    apply IH; exact Hm.
Qed.

Lemma shr_m_shr_1 (r : shr_record) : 0 <= shr_m r -> shr_m (shr_1 r) = shr_m r / 2.
Proof.
  destruct r as [m rr ss]; cbn [shr_m]. intros Hm.
  rewrite <- Z.div2_div. destruct m as [|[p|p|]|p]; try reflexivity. lia.
Qed.

Lemma shr_m_nonneg_shr_1 (r : shr_record) : 0 <= shr_m r -> 0 <= shr_m (shr_1 r).
Proof. intros H. rewrite shr_m_shr_1 by exact H. apply Z.div_pos; lia. Qed.

Lemma shr_m_iter (p : positive) (r : shr_record) :
  0 <= shr_m r ->
  shr_m (SpecFloat.iter_pos shr_1 p r) = shr_m r / 2 ^ Z.pos p
  /\ 0 <= shr_m (SpecFloat.iter_pos shr_1 p r).
Proof.
  intros Hm. rewrite iter_pos_eq.
  induction p as [|p IH] using Pos.peano_ind.
  - cbn [Pos.iter]. split; [now rewrite shr_m_shr_1 | now apply shr_m_nonneg_shr_1].
  - rewrite Pos.iter_succ. destruct IH as [IH1 IH2].
    split; [|now apply shr_m_nonneg_shr_1].
    rewrite shr_m_shr_1 by exact IH2. rewrite IH1.
    rewrite Pos2Z.inj_succ, Z.pow_succ_r by lia.
    rewrite Z.div_div by lia. f_equal. lia.
Qed.

Lemma fexp_eq (x : Z) : -1021 <= x -> fexp prec emax x = x - 53.
Proof. intros Hx. unfold fexp, SpecFloat.emin, prec, emax. lia. Qed.

Lemma digits2_scaled (M m0 : positive) (d k : Z) :
  Z.pos (digits2_pos m0) = d -> 0 <= k -> Z.pos M = Z.pos m0 * 2 ^ k ->
  Z.pos (digits2_pos M) = d + k.
Proof.
  intros Hd Hk HM. apply digits2_unique.
  pose proof (digits2_bounds m0) as [Blo Bhi]. rewrite Hd in Blo, Bhi.
  assert (0 < d) by (rewrite <- Hd; lia).
  replace (d + k - 1) with (d - 1 + k) by lia.
  rewrite !Z.pow_add_r by lia. rewrite HM.
  assert (0 < 2 ^ k) by (apply Z.pow_pos_nonneg; lia).
  split; [apply Z.mul_le_mono_nonneg_r | apply Z.mul_lt_mono_pos_r]; lia.
Qed.

Lemma shr_fexp_exact (M m0 : positive) (k e : Z) :
  Z.pos (digits2_pos m0) = 53 -> 0 <= k -> Z.pos M = Z.pos m0 * 2 ^ k ->
  -1074 <= e + k ->
  shr_fexp prec emax (Z.pos M) e loc_Exact
  = (Build_shr_record (Z.pos m0) false false, e + k).
Proof.
  intros Hd Hk HM He.
  unfold shr_fexp. cbn [Zdigits2 shr_record_of_loc].
  rewrite (digits2_scaled M m0 53 k Hd Hk HM).
  rewrite fexp_eq by lia.
  replace (53 + k + e - 53 - e) with k by lia.
  destruct k as [|p|p]; [| |lia].
  - cbn [shr]. rewrite HM. f_equal; [f_equal|]; lia.
  - cbn [shr]. rewrite HM. rewrite shr_exact by lia. reflexivity.
Qed.

Lemma binary_round_aux_exact (s : bool) (M m0 : positive) (k e : Z) :
  Z.pos (digits2_pos m0) = 53 -> 0 <= k -> Z.pos M = Z.pos m0 * 2 ^ k ->
  -1074 <= e + k <= 971 ->
  binary_round_aux prec emax s (Z.pos M) e loc_Exact = S754_finite s m0 (e + k).
Proof.
  intros Hd Hk HM He.
  unfold binary_round_aux.
  rewrite (shr_fexp_exact M m0 k e Hd Hk HM) by lia.
  cbn [shr_m loc_of_shr_record round_nearest_even].
  rewrite (shr_fexp_exact m0 m0 0 (e + k) Hd) by lia.
  cbn [shr_m]. rewrite Z.add_0_r.
  replace (e + k <=? emax - prec) with true; [reflexivity|].
  symmetry; apply Z.leb_le. unfold emax, prec. lia.
Qed.

Lemma norm53_spec (m : positive) :
  Z.pos (digits2_pos m) <= 53 ->
  Z.pos (norm53 m) = Z.pos m * 2 ^ (53 - Z.pos (digits2_pos m))
  /\ Z.pos (digits2_pos (norm53 m)) = 53.
Proof.
  intros Hd. unfold norm53.
  assert (Hpos : 0 < Z.pos m * 2 ^ (53 - Z.pos (digits2_pos m))).
  { apply Z.mul_pos_pos; [lia | apply Z.pow_pos_nonneg; lia]. }
  rewrite Z2Pos.id by exact Hpos. split; [reflexivity|].
  replace 53 with (Z.pos (digits2_pos m) + (53 - Z.pos (digits2_pos m))) at 2 by lia.
  apply (digits2_scaled _ m); [reflexivity | lia |].
  rewrite Z2Pos.id by exact Hpos. reflexivity.
Qed.

Lemma binary_round_scaled (s : bool) (M m1 : positive) (j e : Z) :
  0 <= j -> Z.pos M = Z.pos m1 * 2 ^ j ->
  Z.pos (digits2_pos m1) <= 53 ->
  -1074 <= e + j + Z.pos (digits2_pos m1) - 53 <= 971 ->
  binary_round prec emax s M e
  = S754_finite s (norm53 m1) (e + j + Z.pos (digits2_pos m1) - 53).
Proof.
  intros Hj HM Hd He.
  destruct (norm53_spec m1 Hd) as [Hn Hnd].
  set (d := Z.pos (digits2_pos m1)) in *.
  unfold binary_round.
  rewrite (digits2_scaled M m1 d j eq_refl Hj HM).
  rewrite fexp_eq by lia.
  unfold shl_align.
  destruct (d + j + e - 53 - e) as [|p|p] eqn:Ediff.
  - replace (e + j + d - 53) with (e + (j - (53 - d))) by lia.
    apply binary_round_aux_exact; [exact Hnd | lia | | lia].
    rewrite HM, Hn. replace (j - (53 - d)) with 0 by lia.
    replace (53 - d) with j by lia. lia.
  - replace (e + j + d - 53) with (e + (j - (53 - d))) by lia.
    apply binary_round_aux_exact; [exact Hnd | lia | | lia].
    rewrite HM, Hn. rewrite <- Z.mul_assoc, <- Z.pow_add_r by lia.
    do 2 f_equal. lia.
  - replace (e + j + d - 53) with (d + j + e - 53 + 0) by lia.
    apply binary_round_aux_exact; [exact Hnd | lia | | lia].
    rewrite pos_iter_xO, HM, Hn, Z.pow_0_r, Z.mul_1_r.
    rewrite <- Z.mul_assoc, <- Z.pow_add_r by lia.
    do 2 f_equal. lia.
Qed.

Lemma digits2_le (p : positive) (n : Z) :
  Z.pos p < 2 ^ n -> Z.pos (digits2_pos p) <= n.
Proof.
  intros Hp. pose proof (digits2_bounds p) as [Blo _].
  assert (Z.pos (digits2_pos p) - 1 < n); [|lia].
  apply (Z.pow_lt_mono_r_iff 2); try lia.
  destruct (Z.ltb_spec n 0); [|lia].
  rewrite Z.pow_neg_r in Hp by lia. lia.
Qed.

Lemma to_Z_of_Z (z : Z) : 0 <= z < 2 ^ 63 -> Uint63Axioms.to_Z (Uint63.of_Z z) = z.
Proof.
  intros Hz. rewrite Uint63.of_Z_spec. apply Z.mod_small. exact Hz.
Qed.

Lemma Prim2SF_of_uint63 (p : positive) :
  Z.pos p < 2 ^ 53 ->
  Prim2SF (of_uint63 (Uint63.of_Z (Z.pos p)))
  = S754_finite false (norm53 p) (Z.pos (digits2_pos p) - 53).
Proof.
  intros Hp. rewrite of_uint63_spec, to_Z_of_Z by lia.
  cbn [binary_normalize].
  pose proof (digits2_le p 53 Hp) as Hd.
  rewrite (binary_round_scaled false p p 0 0); [f_equal; lia | lia | lia | exact Hd | lia].
Qed.

Lemma Prim2SF_of_int (z : Z) :
  - 2 ^ 53 < z < 2 ^ 53 -> Prim2SF (of_int z) = SFofZ z.
Proof.
  intros Hz. unfold of_int.
  destruct (Z.eqb_spec z int64_min) as [E|_]; [unfold int64_min in E; lia|].
  destruct z as [|p|p]; cbn [Z.ltb Z.compare Z.opp SFofZ].
  - reflexivity.
  - apply Prim2SF_of_uint63; lia.
  - rewrite opp_spec, Prim2SF_of_uint63 by lia. reflexivity.
Qed.

Lemma binary_normalize_scaled (c t j : Z) :
  0 <= j -> t = c * 2 ^ j -> - 2 ^ 53 < c < 2 ^ 53 ->
  binary_normalize prec emax t (- j) false = SFofZ c.
Proof.
  intros Hj Ht Hc.
  assert (H2 : 0 < 2 ^ j) by (apply Z.pow_pos_nonneg; lia).
  destruct c as [|pc|pc]; cbn [SFofZ].
  - rewrite Ht. reflexivity.
  - destruct t as [|M|M]; try nia. cbn [binary_normalize].
    pose proof (digits2_le pc 53 ltac:(lia)) as Hd.
    pose proof (digits2_bounds pc) as [_ _].
    rewrite (binary_round_scaled false M pc j (- j)); [f_equal; lia | lia | lia | exact Hd | lia].
  - destruct t as [|M|M]; try nia. cbn [binary_normalize].
    pose proof (digits2_le pc 53 ltac:(lia)) as Hd.
    rewrite (binary_round_scaled true M pc j (- j)); [f_equal; lia | lia | lia | exact Hd | lia].
Qed.

Lemma shl_align_fst (mx : positive) (ex ez : Z) :
  ez <= ex -> Z.pos (fst (shl_align mx ex ez)) = Z.pos mx * 2 ^ (ex - ez).
Proof.
  intros Hle. unfold shl_align.
  destruct (ez - ex) as [|d|d] eqn:E; cbn [fst].
  - replace (ex - ez) with 0 by lia. lia.
  - lia.
  - rewrite pos_iter_xO. do 2 f_equal. lia.
Qed.

(** The integer a canonical finite float stands for, scaled to exponent [ez]. *)
Lemma SFofZ_aligned (p : positive) (s : bool) (ez : Z) :
  Z.pos p < 2 ^ 53 -> ez <= Z.pos (digits2_pos p) - 53 ->
  cond_Zopp s (Z.pos (fst (shl_align (norm53 p) (Z.pos (digits2_pos p) - 53) ez)))
  = (if s then Z.neg p else Z.pos p) * 2 ^ (- ez).
Proof.
  intros Hp Hez.
  pose proof (digits2_le p 53 Hp) as Hd.
  destruct (norm53_spec p Hd) as [Hn _].
  rewrite shl_align_fst by exact Hez. rewrite Hn.
  rewrite <- Z.mul_assoc, <- Z.pow_add_r by lia.
  replace (53 - Z.pos (digits2_pos p) + (Z.pos (digits2_pos p) - 53 - ez)) with (- ez) by lia.
  destruct s; cbn [cond_Zopp]; lia.
Qed.

Lemma SFofZ_sign_mag (z : Z) :
  z <> 0 ->
  exists (s : bool) (p : positive),
    z = (if s then Z.neg p else Z.pos p)
    /\ SFofZ z = S754_finite s (norm53 p) (Z.pos (digits2_pos p) - 53).
Proof.
  destruct z as [|p|p]; intros Hz; [congruence | exists false, p | exists true, p];
    split; reflexivity.
Qed.

Lemma SFadd_SFofZ (a b : Z) :
  - 2 ^ 53 < a < 2 ^ 53 -> - 2 ^ 53 < b < 2 ^ 53 -> - 2 ^ 53 < a + b < 2 ^ 53 ->
  SF64add (SFofZ a) (SFofZ b) = SFofZ (a + b).
Proof.
  intros Ha Hb Hab.
  destruct (Z.eq_dec a 0) as [->|Hna].
  { destruct b; reflexivity. }
  destruct (Z.eq_dec b 0) as [->|Hnb].
  { rewrite Z.add_0_r. destruct a; reflexivity. }
  destruct (SFofZ_sign_mag a Hna) as (sa & pa & Ea & ->).
  destruct (SFofZ_sign_mag b Hnb) as (sb & pb & Eb & ->).
  unfold SF64add, SFadd. cbv zeta.
  assert (Hpa : Z.pos pa < 2 ^ 53) by (destruct sa; lia).
  assert (Hpb : Z.pos pb < 2 ^ 53) by (destruct sb; lia).
  pose proof (digits2_le pa 53 Hpa). pose proof (digits2_le pb 53 Hpb).
  rewrite (SFofZ_aligned pa sa _ Hpa) by lia.
  rewrite (SFofZ_aligned pb sb _ Hpb) by lia.
  rewrite <- Ea, <- Eb, <- Z.mul_add_distr_r.
  set (ez := Z.min (Z.pos (digits2_pos pa) - 53) (Z.pos (digits2_pos pb) - 53)).
  replace ez with (- (- ez)) at 2 by lia.
  apply binary_normalize_scaled; [unfold ez; lia | reflexivity | exact Hab].
Qed.

Lemma SFsub_SFofZ (a b : Z) :
  - 2 ^ 53 < a < 2 ^ 53 -> - 2 ^ 53 < b < 2 ^ 53 -> - 2 ^ 53 < a - b < 2 ^ 53 ->
  SF64sub (SFofZ a) (SFofZ b) = SFofZ (a - b).
Proof.
  intros Ha Hb Hab.
  destruct (Z.eq_dec a 0) as [->|Hna].
  { destruct b; reflexivity. }
  destruct (Z.eq_dec b 0) as [->|Hnb].
  { rewrite Z.sub_0_r. destruct a; reflexivity. }
  destruct (SFofZ_sign_mag a Hna) as (sa & pa & Ea & ->).
  destruct (SFofZ_sign_mag b Hnb) as (sb & pb & Eb & ->).
  unfold SF64sub, SFsub. cbv zeta.
  assert (Hpa : Z.pos pa < 2 ^ 53) by (destruct sa; lia).
  assert (Hpb : Z.pos pb < 2 ^ 53) by (destruct sb; lia).
  pose proof (digits2_le pa 53 Hpa). pose proof (digits2_le pb 53 Hpb).
  rewrite (SFofZ_aligned pa sa _ Hpa) by lia.
  rewrite (SFofZ_aligned pb sb _ Hpb) by lia.
  rewrite <- Ea, <- Eb, <- Z.mul_sub_distr_r.
  set (ez := Z.min (Z.pos (digits2_pos pa) - 53) (Z.pos (digits2_pos pb) - 53)).
  replace ez with (- (- ez)) at 2 by lia.
  apply binary_normalize_scaled; [unfold ez; lia | reflexivity | exact Hab].
Qed.

Theorem of_int_add (a b : Z) :
  - 2 ^ 53 < a < 2 ^ 53 -> - 2 ^ 53 < b < 2 ^ 53 -> - 2 ^ 53 < a + b < 2 ^ 53 ->
  (of_int a + of_int b)%float = of_int (a + b).
Proof.
  intros Ha Hb Hab. apply Prim2SF_inj.
  rewrite add_spec, !Prim2SF_of_int by assumption.
  apply SFadd_SFofZ; assumption.
Qed.

Theorem of_int_sub (a b : Z) :
  - 2 ^ 53 < a < 2 ^ 53 -> - 2 ^ 53 < b < 2 ^ 53 -> - 2 ^ 53 < a - b < 2 ^ 53 ->
  (of_int a - of_int b)%float = of_int (a - b).
Proof.
  intros Ha Hb Hab. apply Prim2SF_inj.
  rewrite sub_spec, !Prim2SF_of_int by assumption.
  apply SFsub_SFofZ; assumption.
Qed.

(** Multiplying by one and by zero. *)
Lemma one_mul_of_int (d : Z) :
  - 2 ^ 53 < d < 2 ^ 53 -> (1 * of_int d)%float = of_int d.
Proof.
  intros Hd. apply Prim2SF_inj. rewrite mul_spec, Prim2SF_of_int by exact Hd.
  change (Prim2SF 1) with (S754_finite false 4503599627370496 (-52)).
  destruct (Z.eq_dec d 0) as [->|Hnz]; [reflexivity|].
  destruct (SFofZ_sign_mag d Hnz) as (s & p & Ed & ->).
  assert (Hp : Z.pos p < 2 ^ 53) by (destruct s; lia).
  pose proof (digits2_le p 53 Hp) as Hdig.
  destruct (norm53_spec p Hdig) as [_ Hn53].
  unfold SF64mul, SFmul. cbn [xorb].
  replace (Z.pos (digits2_pos p) - 53) with (-52 + (Z.pos (digits2_pos p) - 53) + 52) at 2 by lia.
  apply binary_round_aux_exact; [exact Hn53 | lia | | lia].
  rewrite Pos2Z.inj_mul. change (2 ^ 52) with 4503599627370496. lia.
Qed.

Lemma zero_mul_of_int (d : Z) :
  - 2 ^ 53 < d < 2 ^ 53 ->
  exists s : bool, Prim2SF (0 * of_int d)%float = S754_zero s.
Proof.
  intros Hd. rewrite mul_spec, Prim2SF_of_int by exact Hd.
  change (Prim2SF 0) with (S754_zero false).
  destruct d as [|p|p]; cbn [SFofZ]; eexists; reflexivity.
Qed.

Lemma of_int_add_zero (a : Z) (z : float) (s : bool) :
  - 2 ^ 53 < a < 2 ^ 53 -> Prim2SF z = S754_zero s ->
  (of_int a + z)%float = of_int a.
Proof.
  intros Ha Hz. apply Prim2SF_inj. rewrite add_spec, Hz, Prim2SF_of_int by exact Ha.
  destruct a as [|p|p]; cbn [SFofZ]; destruct s; reflexivity.
Qed.

(** Division of a finite non-zero float by itself, and of zero by it. *)
Lemma SFdiv_self (s : bool) (m : positive) (e : Z) :
  SF64div (S754_finite s m e) (S754_finite s m e) = Prim2SF 1.
Proof.
  unfold SF64div, SFdiv, SFdiv_core_binary.
  replace (Zdigits2 (Z.pos m) + e - (Zdigits2 (Z.pos m) + e)) with 0 by lia.
  replace (e - e) with 0 by lia.
  change (Z.min (fexp prec emax 0) 0) with (-53).
  change (0 - -53) with 53.
  cbv iota beta.
  rewrite Z.shiftl_mul_pow2 by lia.
  pose proof (Z.div_eucl_eq (Z.pos m * 2 ^ 53) (Z.pos m) ltac:(lia)) as Heq.
  pose proof (Z.mod_pos_bound (Z.pos m * 2 ^ 53) (Z.pos m) ltac:(lia)) as Hmod.
  unfold Z.modulo in Hmod.
  destruct (Z.div_eucl (Z.pos m * 2 ^ 53) (Z.pos m)) as [q r].
  cbn [snd] in Hmod. change (2 ^ 53) with 9007199254740992 in *.
  assert (Hq : q = 9007199254740992)
    by (destruct (Z.lt_trichotomy q 9007199254740992) as [Hlt|[Heq'|Hgt]]; nia).
  subst q. assert (r = 0) by lia. subst r.
  replace (new_location (Z.pos m) 0) with loc_Exact
    by (unfold new_location, new_location_even, new_location_odd;
        destruct (Z.even (Z.pos m)); reflexivity).
  destruct s; reflexivity.
Qed.

Lemma div_self (x : float) (s : bool) (m : positive) (e : Z) :
  Prim2SF x = S754_finite s m e -> (x / x)%float = 1%float.
Proof.
  intros Hx. apply Prim2SF_inj. rewrite div_spec, Hx. apply SFdiv_self.
Qed.

Lemma zero_div (x : float) (m : positive) (e : Z) :
  Prim2SF x = S754_finite false m e -> (0 / x)%float = 0%float.
Proof.
  intros Hx. apply Prim2SF_inj. rewrite div_spec, Hx. reflexivity.
Qed.

(** Rounding a positive mantissa never gives zero, an infinity or NaN while
    the exponent stays small. *)
Lemma shr_m_record_of_loc (m : Z) (l : location) : shr_m (shr_record_of_loc m l) = m.
Proof. destruct l as [|[]]; reflexivity. Qed.

Lemma round_nearest_even_bounds (m : Z) (l : location) :
  m <= round_nearest_even m l <= m + 1.
Proof.
  destruct l as [|[]]; cbn [round_nearest_even]; try lia.
  destruct (Z.even m); lia.
Qed.

Lemma shr_fexp_mantissa (m : positive) (e : Z) (l : location) :
  -1021 <= Z.pos (digits2_pos m) + e ->
  let d := Z.pos (digits2_pos m) in
  (d <= 53 /\ shr_m (fst (shr_fexp prec emax (Z.pos m) e l)) = Z.pos m
   /\ snd (shr_fexp prec emax (Z.pos m) e l) = e)
  \/ (53 < d /\ 2 ^ 52 <= shr_m (fst (shr_fexp prec emax (Z.pos m) e l)) < 2 ^ 53
      /\ snd (shr_fexp prec emax (Z.pos m) e l) = e + d - 53).
Proof.
  intros He d. unfold shr_fexp. cbn [Zdigits2]. fold d.
  rewrite fexp_eq by (unfold d; lia).
  pose proof (digits2_bounds m) as [Blo Bhi]. fold d in Blo, Bhi.
  destruct (d + e - 53 - e) as [|k|k] eqn:Ek; cbn [shr fst snd].
  - left. rewrite shr_m_record_of_loc. repeat split; lia.
  - right.
    destruct (shr_m_iter k (shr_record_of_loc (Z.pos m) l)) as [Hm _];
      [rewrite shr_m_record_of_loc; lia|].
    rewrite Hm, shr_m_record_of_loc.
    assert (Hk : Z.pos k = d - 53) by lia.
    assert (Hpow : 0 < 2 ^ Z.pos k) by (apply Z.pow_pos_nonneg; lia).
    split; [lia|]. split; [|lia].
    assert (Hd1 : 2 ^ (d - 1) = 2 ^ 52 * 2 ^ Z.pos k)
      by (rewrite <- Z.pow_add_r by lia; f_equal; lia).
    assert (Hd2 : 2 ^ d = 2 ^ 53 * 2 ^ Z.pos k)
      by (rewrite <- Z.pow_add_r by lia; f_equal; lia).
    split.
    + apply Z.div_le_lower_bound; lia.
    + apply Z.div_lt_upper_bound; lia.
  - left. rewrite shr_m_record_of_loc. repeat split; lia.
Qed.

Lemma binary_round_aux_finite (s : bool) (m : positive) (e : Z) (l : location) :
  -1000 <= e <= 900 -> Z.pos m < 2 ^ 64 ->
  exists (m' : positive) (e' : Z),
    binary_round_aux prec emax s (Z.pos m) e l = S754_finite s m' e'.
Proof.
  intros He Hm.
  pose proof (digits2_le m 64 Hm) as Hd.
  pose proof (digits2_bounds m) as [Blo Bhi].
  unfold binary_round_aux.
  pose proof (shr_fexp_mantissa m e l ltac:(lia)) as Hstage1. cbv zeta in Hstage1.
  destruct (shr_fexp prec emax (Z.pos m) e l) as [mrs1 e1]. cbn [fst snd] in Hstage1.
  assert (H1 : 1 <= shr_m mrs1 < 2 ^ 53 /\ e <= e1 <= e + 11).
  { destruct Hstage1 as [(Hd1 & Hm1 & He1) | (Hd1 & Hm1 & He1)].
    - rewrite Hm1, He1. split; [|lia]. split; [lia|].
      eapply Z.lt_le_trans; [exact Bhi|]. apply Z.pow_le_mono_r; lia.
    - change (2 ^ 52) with 4503599627370496 in Hm1. lia. }
  destruct H1 as [Hm1 He1].
  pose proof (round_nearest_even_bounds (shr_m mrs1) (loc_of_shr_record mrs1)) as Hr.
  destruct (round_nearest_even (shr_m mrs1) (loc_of_shr_record mrs1)) as [|m2|m2] eqn:Em2;
    try lia.
  pose proof (digits2_le m2 54 ltac:(change (2 ^ 54) with (2 * 2 ^ 53); lia)) as Hd2.
  pose proof (digits2_bounds m2) as [B2lo B2hi].
  pose proof (shr_fexp_mantissa m2 e1 loc_Exact ltac:(lia)) as Hstage2. cbv zeta in Hstage2.
  destruct (shr_fexp prec emax (Z.pos m2) e1 loc_Exact) as [mrs2 e2].
  cbn [fst snd] in Hstage2.
  assert (H2 : 1 <= shr_m mrs2 /\ e2 <= 971).
  { destruct Hstage2 as [(Hd2' & Hm2 & He2) | (Hd2' & Hm2 & He2)].
    - rewrite Hm2, He2. lia.
    - change (2 ^ 52) with 4503599627370496 in Hm2. lia. }
  destruct H2 as [Hm2 He2].
  destruct (shr_m mrs2) as [|m3|m3]; try lia.
  exists m3, e2.
  replace (e2 <=? emax - prec) with true; [reflexivity|].
  symmetry; apply Z.leb_le. unfold emax, prec. lia.
Qed.

Lemma Prim2SF_of_int_pos (z : Z) :
  0 < z < 2 ^ 63 ->
  exists (m : positive) (e : Z), Prim2SF (of_int z) = S754_finite false m e.
Proof.
  intros Hz. unfold of_int.
  destruct (Z.eqb_spec z int64_min) as [E|_]; [unfold int64_min in E; lia|].
  destruct z as [|p|p]; try lia. cbn [Z.ltb Z.compare].
  rewrite of_uint63_spec, to_Z_of_Z by lia.
  cbn [binary_normalize]. unfold binary_round.
  pose proof (digits2_le p 63 ltac:(lia)) as Hd.
  pose proof (digits2_bounds p) as [Blo Bhi].
  rewrite fexp_eq by lia.
  unfold shl_align.
  destruct (Z.pos (digits2_pos p) + 0 - 53 - 0) as [|k|k] eqn:Ek.
  - apply binary_round_aux_finite; [lia|].
    eapply Z.lt_trans; [exact (proj2 Hz)|]. apply Z.pow_lt_mono_r; lia.
  - apply binary_round_aux_finite; [lia|].
    eapply Z.lt_trans; [exact (proj2 Hz)|]. apply Z.pow_lt_mono_r; lia.
  - apply binary_round_aux_finite; [lia|].
    rewrite pos_iter_xO.
    assert (Hk : Z.pos k = 53 - Z.pos (digits2_pos p)) by lia.
    assert (Z.pos p * 2 ^ Z.pos k < 2 ^ Z.pos (digits2_pos p) * 2 ^ Z.pos k).
    { apply Z.mul_lt_mono_pos_r; [apply Z.pow_pos_nonneg; lia | exact Bhi]. }
    rewrite <- Z.pow_add_r in H by lia.
    eapply Z.lt_le_trans; [exact H|]. apply Z.pow_le_mono_r; lia.
Qed.

(** Converting back: [int(float64(z))], [uint16(float64(z))], [math.Round]. *)
Lemma mant_exp_of_int (z : Z) :
  - 2 ^ 53 < z < 2 ^ 53 -> z <> 0 ->
  exists (j : Z), 0 <= j /\ mant_exp (of_int z) = Some (z * 2 ^ j, - j).
Proof.
  intros Hz Hnz. unfold mant_exp. rewrite Prim2SF_of_int by exact Hz.
  destruct (SFofZ_sign_mag z Hnz) as (s & p & Ez & ->).
  assert (Hp : Z.pos p < 2 ^ 53) by (destruct s; lia).
  pose proof (digits2_le p 53 Hp) as Hd.
  destruct (norm53_spec p Hd) as [Hn _].
  exists (53 - Z.pos (digits2_pos p)). split; [lia|].
  f_equal. f_equal; [|lia].
  destruct s; subst z.
  - change (Z.neg (norm53 p)) with (- Z.pos (norm53 p)). rewrite Hn. lia.
  - rewrite Hn. reflexivity.
Qed.

Lemma truncZ_of_int (z : Z) : - 2 ^ 53 < z < 2 ^ 53 -> truncZ (of_int z) = Some z.
Proof.
  intros Hz. destruct (Z.eq_dec z 0) as [->|Hnz]; [reflexivity|].
  destruct (mant_exp_of_int z Hz Hnz) as (j & Hj & Hme).
  unfold truncZ. rewrite Hme. f_equal.
  assert (H2 : 0 < 2 ^ j) by (apply Z.pow_pos_nonneg; lia).
  destruct (Z.leb_spec 0 (- j)).
  - replace j with 0 by lia. replace (- 0) with 0 by lia. lia.
  - replace (- - j) with j by lia. apply Z.quot_mul. lia.
Qed.

Lemma to_int64_of_int (z : Z) : - 2 ^ 53 < z < 2 ^ 53 -> to_int64 (of_int z) = z.
Proof.
  intros Hz. unfold to_int64. rewrite truncZ_of_int by exact Hz.
  replace ((int64_min <=? z) && (z <=? int64_max)) with true; [reflexivity|].
  symmetry. apply andb_true_intro. unfold int64_min, int64_max.
  split; apply Z.leb_le; lia.
Qed.

Lemma to_uint16_of_int_16 (z : Z) : 0 <= z < 2 ^ 16 -> to_uint16 (of_int z) = z.
Proof.
  intros Hz. unfold to_uint16, to_int32. rewrite truncZ_of_int by lia.
  replace ((- 2 ^ 31 <=? z) && (z <? 2 ^ 31)) with true.
  - apply Z.mod_small. exact Hz.
  - symmetry. apply andb_true_intro. split; [apply Z.leb_le | apply Z.ltb_lt]; lia.
Qed.

Lemma Round_of_int (z : Z) : - 2 ^ 53 < z < 2 ^ 53 -> Round (of_int z) = of_int z.
Proof.
  intros Hz. destruct (Z.eq_dec z 0) as [->|Hnz]; [reflexivity|].
  unfold Round. rewrite Prim2SF_of_int by exact Hz.
  destruct (SFofZ_sign_mag z Hnz) as (s & p & Ez & ->).
  assert (Hp : Z.pos p < 2 ^ 53) by (destruct s; lia).
  pose proof (digits2_le p 53 Hp) as Hd.
  destruct (norm53_spec p Hd) as [Hn _].
  destruct (Z.leb_spec 0 (Z.pos (digits2_pos p) - 53)); [reflexivity|].
  set (j := 53 - Z.pos (digits2_pos p)) in *.
  assert (H2 : 0 < 2 ^ j) by (apply Z.pow_pos_nonneg; lia).
  replace (- (Z.pos (digits2_pos p) - 53)) with j by lia.
  rewrite Hn. rewrite Z.pow_add_r, Z.pow_1_r by lia.
  replace (2 * (Z.pos p * 2 ^ j) + 2 ^ j) with ((2 * Z.pos p + 1) * 2 ^ j) by lia.
  rewrite (Z.mul_comm (2 ^ j) 2).
  rewrite Z.div_mul_cancel_r by lia.
  replace ((2 * Z.pos p + 1) / 2) with (Z.pos p)
    by (apply Z.div_unique with 1; lia).
  cbn [Z.eqb]. destruct s; subst z; reflexivity.
Qed.

(** ** The line generator *)

Lemma to_int64_le_max (f : float) : to_int64 f <= int64_max.
Proof.
  unfold to_int64. destruct (truncZ f) as [z|]; [|unfold int64_min, int64_max; lia].
  destruct ((int64_min <=? z) && (z <=? int64_max)) eqn:E.
  - apply andb_prop in E. destruct E as [_ E]. apply Z.leb_le in E. exact E.
  - unfold int64_min, int64_max; lia.
Qed.

Lemma numPoints_le_max (duration : Duration) : Pattern.numPoints duration <= int64_max.
Proof.
  unfold Pattern.numPoints.
  destruct (_ <? 1); [unfold int64_max; lia | apply to_int64_le_max].
Qed.

Lemma lineParam_first (n : Z) :
  2 <= n <= int64_max -> Pattern.lineParam n 0 = 0%float.
Proof.
  intros Hn. unfold Pattern.lineParam, Pattern.lineDivisor.
  rewrite wrap64_id by (unfold int64_min, int64_max in *; lia).
  destruct (Prim2SF_of_int_pos (n - 1)) as (m & e & Hm);
    [unfold int64_max in Hn; lia|].
  exact (zero_div _ m e Hm).
Qed.

Lemma lineParam_last (n : Z) :
  2 <= n <= int64_max -> Pattern.lineParam n (n - 1) = 1%float.
Proof.
  intros Hn. unfold Pattern.lineParam, Pattern.lineDivisor.
  rewrite wrap64_id by (unfold int64_min, int64_max in *; lia).
  destruct (Prim2SF_of_int_pos (n - 1)) as (m & e & Hm);
    [unfold int64_max in Hn; lia|].
  exact (div_self _ false m e Hm).
Qed.

(** Linear interpolation between two [uint16] values at both ends. *)
Lemma lerp_first (a b : Z) :
  0 <= a < 2 ^ 16 -> 0 <= b < 2 ^ 16 ->
  to_uint16 (Round (of_int a + 0 * (of_int b - of_int a))%float) = a.
Proof.
  intros Ha Hb. rewrite of_int_sub by lia.
  destruct (zero_mul_of_int (b - a)) as [s Hs]; [lia|].
  rewrite (of_int_add_zero a _ s) by (lia || exact Hs).
  rewrite Round_of_int by lia. apply to_uint16_of_int_16. exact Ha.
Qed.

Lemma lerp_last (a b : Z) :
  0 <= a < 2 ^ 16 -> 0 <= b < 2 ^ 16 ->
  to_uint16 (Round (of_int a + 1 * (of_int b - of_int a))%float) = b.
Proof.
  intros Ha Hb. rewrite of_int_sub by lia.
  rewrite one_mul_of_int by lia.
  rewrite of_int_add by lia. replace (a + (b - a)) with b by lia.
  rewrite Round_of_int by lia. apply to_uint16_of_int_16. exact Hb.
Qed.

Lemma range_ends (n : Z) :
  2 <= n -> exists middle : list Z, range 0 (n - 1) = 0 :: middle ++ [n - 1].
Proof.
  intros Hn. unfold range.
  destruct (Z.to_nat (n - 1 - 0 + 1)) as [|[|k]] eqn:E; try lia.
  rewrite range_from_snoc. cbn [range_from app].
  exists (range_from (0 + 1) k). do 3 f_equal. lia.
Qed.

(** C10.  [GenerateLine] returns [numPoints] samples, each carrying the
    colour of the end point when [on] is true and no colour when it is
    false.  When [numPoints >= 2] the first sample lies at the start
    position and the last one at the end position (the interpolation
    parameter is exactly 0 and 1 there, and rounding returns the [uint16]
    coordinates unchanged).  When [numPoints = 1] the divisor
    [float64(numPoints-1)] is 0 and the parameter [0/0] is NaN. *)
Theorem GenerateLine_endpoints (start stop : Point) (duration : Duration) (on : bool) :
  0 <= X start < 2 ^ 16 -> 0 <= Y start < 2 ^ 16 ->
  0 <= X stop < 2 ^ 16 -> 0 <= Y stop < 2 ^ 16 ->
  let n := Pattern.numPoints duration in
  let line := Pattern.GenerateLine start stop duration on in
  Z.of_nat (length line) = n
  /\ Forall (Spec.line_colour stop on) line
  /\ (2 <= n ->
      exists (first : Point) (middle : list Point) (last : Point),
        line = first :: middle ++ [last]
        /\ X first = X start /\ Y first = Y start
        /\ X last = X stop /\ Y last = Y stop)
  /\ (n = 1 ->
      Pattern.lineDivisor n = 0%float /\ Pattern.lineParam n 0 = nan).
Proof.
  intros HXs HYs HXe HYe n line.
  pose proof (numPoints_pos duration) as Hpos. fold n in Hpos.
  pose proof (numPoints_le_max duration) as Hmax. fold n in Hmax.
  split; [|split; [|split]].
  - unfold line, Pattern.GenerateLine. fold n.
    rewrite length_map, range_length. lia.
  - unfold line, Pattern.GenerateLine.
    apply Forall_map, Forall_forall. intros i _.
    unfold Pattern.linePoint, Spec.line_colour.
    destruct on; cbn [R G B I]; repeat split; reflexivity.
  - intros Hn. destruct (range_ends n Hn) as [middle Hr].
    unfold line, Pattern.GenerateLine. fold n. rewrite Hr.
    cbn [map]. rewrite map_app. cbn [map].
    eexists; eexists; eexists. split; [reflexivity|].
    unfold Pattern.linePoint.
    rewrite (lineParam_first n), (lineParam_last n) by lia.
    destruct on; cbn [X Y];
      rewrite !lerp_first, !lerp_last by assumption; repeat split; reflexivity.
  - intros ->. split; reflexivity.
Qed.

Lemma GenerateLine_endpoints_witness :
  let start := mkPoint 1000 1000 0 255 0 255 in
  let stop := mkPoint 2048 3500 0 255 0 255 in
  let duration := 20 * Millisecond in
  let n := Pattern.numPoints duration in
  let line := Pattern.GenerateLine start stop duration true in
  n = 600
  /\ Z.of_nat (length line) = n
  /\ Forall (Spec.line_colour stop true) line
  /\ (2 <= n ->
      exists (first : Point) (middle : list Point) (last : Point),
        line = first :: middle ++ [last]
        /\ X first = X start /\ Y first = Y start
        /\ X last = X stop /\ Y last = Y stop)
  /\ (n = 1 ->
      Pattern.lineDivisor n = 0%float /\ Pattern.lineParam n 0 = nan).
Proof.
  intros start stop duration n line.
  split; [vm_compute; reflexivity|].
  apply (GenerateLine_endpoints start stop duration true);
    unfold start, stop; cbn [X Y]; lia.
Defined.

(** ** Further properties of the code *)

Lemma padLoop_empty (fuel : nat) : Dot.padLoop fuel [] [] = None.
Proof.
  induction fuel as [|fuel IH]; [reflexivity|].
  cbn [Dot.padLoop length app]. exact IH.
Qed.

(** X1.  When the feature budget is 10 points or fewer (a low rate), the
    ring generator returns nothing, [main] has no points to replicate and
    its padding loop never finishes, however many iterations it is given. *)
Theorem compileFrame_spins_on_small_budget (Cos Sin : float -> float) (fuel : nat)
    (x y radius pps : Z) :
  Dot.centreInBounds x y = true ->
  int64_min < Dot.featureBudget pps <= 10 ->
  Dot.compilePoints Cos Sin x y radius pps = []
  /\ Dot.compileFrame Cos Sin fuel x y radius pps = Dot.Spinning.
Proof.
  intros Hin Hb.
  assert (Hempty : Dot.compilePoints Cos Sin x y radius pps = []).
  { unfold Dot.compilePoints, Dot.getFeaturePoints.
    rewrite wrap64_id by (unfold int64_min, int64_max in *; lia).
    destruct (Z.ltb_spec (Dot.featureBudget pps - 1) 10); [reflexivity | lia]. }
  split; [exact Hempty|].
  unfold Dot.compileFrame. rewrite Hin, Hempty.
  unfold Dot.fillBuffer. rewrite padLoop_empty. reflexivity.
Qed.

Lemma compileFrame_spins_on_small_budget_witness :
  Dot.centreInBounds 2048 2048 = true
  /\ Dot.featureBudget 500 = 5
  /\ Dot.compilePoints (fun _ => 1%float) (fun _ => 0%float) 2048 2048 84 500 = []
  /\ Dot.compileFrame (fun _ => 1%float) (fun _ => 0%float) 3000 2048 2048 84 500
     = Dot.Spinning.
Proof.
  split; [vm_compute; reflexivity|]. split; [vm_compute; reflexivity|].
  apply (compileFrame_spins_on_small_budget _ _ 3000 2048 2048 84 500).
  - vm_compute; reflexivity.
  - replace (Dot.featureBudget 500) with 5 by (vm_compute; reflexivity).
    unfold int64_min; lia.
Defined.

Lemma of_int_mul_one (d : Z) :
  - 2 ^ 53 < d < 2 ^ 53 -> (of_int d * 1)%float = of_int d.
Proof.
  intros Hd. apply Prim2SF_inj. rewrite mul_spec, Prim2SF_of_int by exact Hd.
  change (Prim2SF 1) with (S754_finite false 4503599627370496 (-52)).
  destruct (Z.eq_dec d 0) as [->|Hnz]; [reflexivity|].
  destruct (SFofZ_sign_mag d Hnz) as (s & p & Ed & ->).
  assert (Hp : Z.pos p < 2 ^ 53) by (destruct s; lia).
  pose proof (digits2_le p 53 Hp) as Hdig.
  destruct (norm53_spec p Hdig) as [_ Hn53].
  unfold SF64mul, SFmul. rewrite xorb_false_r.
  replace (Z.pos (digits2_pos p) - 53) with (Z.pos (digits2_pos p) - 53 + -52 + 52) at 2 by lia.
  apply binary_round_aux_exact; [exact Hn53 | lia | | lia].
  rewrite Pos2Z.inj_mul. change (2 ^ 52) with 4503599627370496. lia.
Qed.

Lemma travelPoints_le_max (sx sy ex ey : float) (pps : Z) :
  Dot.travelPoints sx sy ex ey pps <= int64_max.
Proof.
  unfold Dot.travelPoints.
  destruct (_ <? 1); [unfold int64_max; lia | apply to_int64_le_max].
Qed.

Lemma travelPoint_last (a b c d n : Z) :
  0 <= a < 2 ^ 16 -> 0 <= b < 2 ^ 16 -> 0 <= c < 2 ^ 16 -> 0 <= d < 2 ^ 16 ->
  1 <= n <= int64_max ->
  Dot.travelPoint (of_int a) (of_int b) (of_int c) (of_int d) n n
  = mkPoint c d 0 0 0 0.
Proof.
  intros Ha Hb Hc Hd Hn. unfold Dot.travelPoint.
  destruct (Prim2SF_of_int_pos n) as (m & e & Hm); [unfold int64_max in Hn; lia|].
  rewrite (div_self _ false m e Hm).
  change (Dot.smoothstep 1) with 1%float.
  rewrite !of_int_sub, !of_int_mul_one, !of_int_add by lia.
  replace (a + (c - a)) with c by lia. replace (b + (d - b)) with d by lia.
  rewrite !to_uint16_of_int_16 by assumption. reflexivity.
Qed.

Lemma range_from_nth (n : nat) (lo : Z) (i : nat) :
  (i < n)%nat -> nth_error (range_from lo n) i = Some (lo + Z.of_nat i).
Proof.
  revert lo i; induction n as [|n IH]; intros lo i Hi; [lia|].
  destruct i as [|i]; cbn [range_from nth_error].
  - f_equal; lia.
  - rewrite IH by lia. f_equal; lia.
Qed.

(** X2.  For integer start and end coordinates, the last sample of the
    transition (step [k = travelPoints]) lies exactly at the end position:
    the easing parameter is exactly 1 there. *)
Theorem getTravelPoints_reaches_end (a b c d pps : Z) :
  0 <= a < 2 ^ 16 -> 0 <= b < 2 ^ 16 -> 0 <= c < 2 ^ 16 -> 0 <= d < 2 ^ 16 ->
  let n := Dot.travelPoints (of_int a) (of_int b) (of_int c) (of_int d) pps in
  nth_error (Dot.getTravelPoints (of_int a) (of_int b) (of_int c) (of_int d) pps)
            (Z.to_nat (n - 1))
  = Some (mkPoint c d 0 0 0 0).
Proof.
  intros Ha Hb Hc Hd n.
  pose proof (travelPoints_pos (of_int a) (of_int b) (of_int c) (of_int d) pps) as Hpos.
  pose proof (travelPoints_le_max (of_int a) (of_int b) (of_int c) (of_int d) pps) as Hmax.
  fold n in Hpos, Hmax.
  rewrite getTravelPoints_split. fold n.
  rewrite nth_error_app1 by (rewrite length_map, range_length; lia).
  rewrite nth_error_map. unfold range.
  rewrite range_from_nth by lia. cbn [option_map].
  replace (1 + Z.of_nat (Z.to_nat (n - 1))) with n by lia.
  rewrite travelPoint_last by (assumption || lia). reflexivity.
Qed.

Lemma last_app_nonempty {A : Type} (l1 l2 : list A) (d : A) :
  l2 <> [] -> last (l1 ++ l2) d = last l2 d.
Proof.
  intros Hne. induction l1 as [|a l1 IH]; [reflexivity|].
  cbn [app]. destruct (l1 ++ l2) as [|b l] eqn:E.
  - destruct l1; [cbn in E; congruence | discriminate E].
  - exact IH.
Qed.

Lemma getTravelPoints_last (sx sy ex ey : float) (pps : Z) (dflt : Point) :
  last (Dot.getTravelPoints sx sy ex ey pps) dflt
  = mkPoint (to_uint16 ex) (to_uint16 ey) 0 0 0 0.
Proof.
  rewrite getTravelPoints_split.
  pose proof (settlePoints_pos pps) as Hs.
  destruct (Z.to_nat (Dot.settlePoints pps)) as [|k] eqn:E; [lia|].
  replace (S k) with (k + 1)%nat by lia.
  rewrite repeat_app. cbn [repeat]. rewrite app_assoc.
  apply last_last.
Qed.

Lemma featureBudget_le_max (pps : Z) : Dot.featureBudget pps <= int64_max.
Proof. apply to_int64_le_max. Qed.

(** X3.  With a centre in bounds and a feature budget of at least 11, the
    sequence [main] assembles before padding ends with the blanked sample
    at the centre: the flyback returns the beam to where the next replica
    starts. *)
Theorem compilePoints_returns_to_centre (Cos Sin : float -> float)
    (x y radius pps : Z) (dflt : Point) :
  0 <= x <= 4095 -> 0 <= y <= 4095 ->
  11 <= Dot.featureBudget pps ->
  last (Dot.compilePoints Cos Sin x y radius pps) dflt = mkPoint x y 0 0 0 0.
Proof.
  intros Hx Hy Hb.
  pose proof (featureBudget_le_max pps) as Hmax.
  unfold Dot.compilePoints.
  destruct (rev _) as [|lastPt rest] eqn:Erev.
  - exfalso. apply (f_equal (@length Point)) in Erev.
    rewrite length_rev in Erev. revert Erev.
    unfold Dot.getFeaturePoints.
    rewrite wrap64_id by (unfold int64_min, int64_max in *; lia).
    destruct (Z.ltb_spec (Dot.featureBudget pps - 1) 10); [lia|].
    rewrite length_app. unfold Dot.ringTravel.
    pose proof (getTravelPoints_length (of_int x) (of_int y)
      (of_int (X (mkPoint (to_uint16 (of_int x + of_int radius)%float)
                          (to_uint16 (of_int y)) 0 0 0 0)))
      (of_int (Y (mkPoint (to_uint16 (of_int x + of_int radius)%float)
                          (to_uint16 (of_int y)) 0 0 0 0))) pps) as Hlen.
    pose proof (travelPoints_pos (of_int x) (of_int y)
      (of_int (X (mkPoint (to_uint16 (of_int x + of_int radius)%float)
                          (to_uint16 (of_int y)) 0 0 0 0)))
      (of_int (Y (mkPoint (to_uint16 (of_int x + of_int radius)%float)
                          (to_uint16 (of_int y)) 0 0 0 0))) pps).
    pose proof (settlePoints_pos pps).
    cbn [length]. lia.
  - pose proof (getTravelPoints_length (of_int (X lastPt)) (of_int (Y lastPt))
                  (of_int x) (of_int y) pps) as Hlen.
    pose proof (travelPoints_pos (of_int (X lastPt)) (of_int (Y lastPt))
                  (of_int x) (of_int y) pps).
    pose proof (settlePoints_pos pps).
    rewrite last_app_nonempty.
    + rewrite getTravelPoints_last, !to_uint16_of_int by assumption. reflexivity.
    + intros Hnil. rewrite Hnil in Hlen. cbn [length] in Hlen. lia.
Qed.

(** X4.  With a budget of at least 11, [getFeaturePoints] returns
    [pointBudget - 1] samples when the travel leaves room for 10 ring
    samples, and otherwise the travel plus 10 ring samples, which is more
    than the budget. *)
Theorem getFeaturePoints_length (Cos Sin : float -> float) (cx cy : float)
    (dotRadius pointBudget pps : Z) :
  let travelLen := Z.of_nat (length (Dot.ringTravel cx cy dotRadius pps)) in
  11 <= pointBudget <= int64_max ->
  int64_min <= pointBudget - 1 - travelLen ->
  Z.of_nat (length (Dot.getFeaturePoints Cos Sin cx cy dotRadius pointBudget pps))
  = Z.max (pointBudget - 1) (travelLen + 10).
Proof.
  intros travelLen Hb Hr. unfold Dot.getFeaturePoints.
  rewrite wrap64_id by (unfold int64_min, int64_max in *; lia).
  destruct (Z.ltb_spec (pointBudget - 1) 10); [lia|].
  rewrite length_app, length_map, range_length. fold travelLen.
  pose proof (ringPts_floor (pointBudget - 1) travelLen) as Hfloor.
  assert (Hring : Dot.ringPts (pointBudget - 1) travelLen
                  = Z.max 10 (pointBudget - 1 - travelLen)).
  { unfold Dot.ringPts.
    rewrite wrap64_id by (unfold int64_min, int64_max, travelLen in *; lia).
    destruct (Z.ltb_spec (pointBudget - 1 - travelLen) 10); lia. }
  unfold travelLen in *. lia.
Qed.

Lemma minReplayInterval_le_max (fd : Duration) : Dot.minReplayInterval fd <= int64_max.
Proof. apply to_int64_le_max. Qed.

Lemma pollDevices_ready (polls : list (Z * Z)) (i : Z) :
  Exists (fun p => fst p = 1) polls -> Dot.pollDevices i polls <> [].
Proof.
  intros Hex. revert i. induction Hex as [[status at_] rest Hhd | [status at_] rest _ IH];
    intros i; cbn [Dot.pollDevices].
  - cbn [fst] in Hhd. subst status. cbn [Z.eqb Pos.eqb]. discriminate.
  - destruct (status =? 1); [discriminate | apply IH].
Qed.

(** X5.  [lastWriteTime] starts as the zero time, so the first firing of
    the ticker at which some device is ready writes to every ready device
    and records the time, whatever the replay interval. *)
Theorem onTick_first_write (frameLen pps : Z) (t : Dot.Tick) :
  Exists (fun p => fst p = 1) (Dot.polls t) ->
  Dot.onTick (Dot.minReplayInterval (Dot.frameDuration frameLen pps)) None t
  = (Dot.pollDevices 0 (Dot.polls t), Some (Dot.nowAt t))
  /\ Dot.pollDevices 0 (Dot.polls t) <> [].
Proof.
  intros Hready.
  pose proof (pollDevices_ready (Dot.polls t) 0 Hready) as Hne.
  split; [|exact Hne].
  unfold Dot.onTick. cbn [Dot.Since].
  pose proof (minReplayInterval_le_max (Dot.frameDuration frameLen pps)) as Hm.
  destruct (Z.ltb_spec int64_max (Dot.minReplayInterval (Dot.frameDuration frameLen pps)));
    [lia|].
  destruct (Dot.pollDevices 0 (Dot.polls t)); [congruence | reflexivity].
Qed.


Lemma padLoop_some (fuel : nat) (singleLoop : list Point) :
  forall (j : nat) (frame : list Point),
    Dot.padLoop fuel singleLoop (Spec.copies j singleLoop) = Some frame ->
    exists k : nat, (j <= k)%nat /\ frame = Spec.copies k singleLoop.
Proof.
  induction fuel as [|fuel IH]; intros j frame Hrun; [discriminate Hrun|].
  cbn [Dot.padLoop] in Hrun.
  destruct (_ <? Dot.targetBufferPoints).
  - destruct (IH (S j) frame Hrun) as (k & Hk & ->). exists k. split; [lia | reflexivity].
  - injection Hrun as <-. exists j. split; [lia | reflexivity].
Qed.

Lemma copies_nth {A : Type} (l : list A) (k i : nat) :
  (i < k * length l)%nat ->
  nth_error (Spec.copies k l) i = nth_error l (i mod length l).
Proof.
  induction k as [|k IH]; intros Hi; [lia|].
  assert (Hl : (0 < length l)%nat) by (destruct l; cbn [length] in *; lia).
  cbn [Spec.copies].
  assert (Hlen : length (Spec.copies k l) = (k * length l)%nat).
  { pose proof (copies_length k l). lia. }
  destruct (Nat.lt_ge_cases i (k * length l)) as [Hlt|Hge].
  - rewrite nth_error_app1 by lia. apply IH; exact Hlt.
  - rewrite nth_error_app2 by lia. rewrite Hlen.
    f_equal.
    replace i with ((i - k * length l) + k * length l)%nat at 2 by lia.
    rewrite Nat.Div0.mod_add. symmetry. apply Nat.mod_small. lia.
Qed.

(** X7.  Whenever the padding loop finishes, the frame is the original
    sequence repeated: sample [i] of the frame is sample
    [i mod len(points)] of the sequence, and the frame's length is a
    multiple of the sequence's. *)
Theorem fillBuffer_periodic (fuel : nat) (points frame : list Point) (i : nat) :
  Dot.fillBuffer fuel points = Some frame ->
  (i < length frame)%nat ->
  nth_error frame i = nth_error points (i mod length points)
  /\ (length frame mod length points = 0)%nat.
Proof.
  intros Hrun Hi. unfold Dot.fillBuffer in Hrun.
  change points with (Spec.copies 1 points) in Hrun at 2.
  destruct (padLoop_some fuel points 1 frame Hrun) as (k & Hk & ->).
  assert (Hlen : length (Spec.copies k points) = (k * length points)%nat).
  { pose proof (copies_length k points). lia. }
  split.
  - apply copies_nth. lia.
  - rewrite Hlen. apply Nat.Div0.mod_mul.
Qed.

Lemma getTravelPoints_reaches_end_witness :
  Dot.travelPoints (of_int 2048) (of_int 2048) (of_int 2132) (of_int 2048) 50000 = 14
  /\ nth_error (Dot.getTravelPoints (of_int 2048) (of_int 2048)
                                    (of_int 2132) (of_int 2048) 50000)
               (Z.to_nat (Dot.travelPoints (of_int 2048) (of_int 2048)
                                           (of_int 2132) (of_int 2048) 50000 - 1))
     = Some (mkPoint 2132 2048 0 0 0 0).
Proof.
  split; [vm_compute; reflexivity|].
  apply (getTravelPoints_reaches_end 2048 2048 2132 2048 50000); lia.
Defined.

Lemma compilePoints_returns_to_centre_witness :
  Dot.featureBudget 50000 = 600
  /\ last (Dot.compilePoints (fun _ => 1%float) (fun _ => 0%float) 2048 2048 84 50000)
          (mkPoint 0 0 0 0 0 0)
     = mkPoint 2048 2048 0 0 0 0.
Proof.
  assert (Hb : Dot.featureBudget 50000 = 600) by (vm_compute; reflexivity).
  split; [exact Hb|].
  apply compilePoints_returns_to_centre; [lia | lia | rewrite Hb; lia].
Defined.

Lemma getFeaturePoints_length_witness :
  Z.of_nat (length (Dot.ringTravel (of_int 2048) (of_int 2048) 84 50000)) = 22
  /\ Z.of_nat (length (Dot.getFeaturePoints (fun _ => 1%float) (fun _ => 0%float)
                         (of_int 2048) (of_int 2048) 84 25 50000))
     = Z.max (25 - 1)
             (Z.of_nat (length (Dot.ringTravel (of_int 2048) (of_int 2048) 84 50000)) + 10).
Proof.
  assert (Ht : Z.of_nat (length (Dot.ringTravel (of_int 2048) (of_int 2048) 84 50000)) = 22)
    by (vm_compute; reflexivity).
  split; [exact Ht|].
  apply (getFeaturePoints_length (fun _ => 1%float) (fun _ => 0%float)
           (of_int 2048) (of_int 2048) 84 25 50000).
  - unfold int64_max; lia.
  - rewrite Ht. unfold int64_min; lia.
Defined.

Lemma onTick_first_write_witness :
  Dot.onTick (Dot.minReplayInterval (Dot.frameDuration 2484 50000)) None
             (Dot.mkTick 1000000 [(0, 1000100); (1, 1000200)] 1000900)
  = (Dot.pollDevices 0 [(0, 1000100); (1, 1000200)], Some 1000900)
  /\ Dot.pollDevices 0 [(0, 1000100); (1, 1000200)] <> [].
Proof.
  apply (onTick_first_write 2484 50000
           (Dot.mkTick 1000000 [(0, 1000100); (1, 1000200)] 1000900)).
  cbn [Dot.polls]. apply Exists_cons_tl. apply Exists_cons_hd. reflexivity.
Defined.

Lemma fillBuffer_periodic_witness :
  let points := [mkPoint 1 1 0 0 0 0; mkPoint 2 2 0 0 0 0; mkPoint 3 3 0 0 0 0] in
  nth_error (Spec.copies 667 points) 4 = nth_error points (4 mod length points)
  /\ (length (Spec.copies 667 points) mod length points = 0)%nat.
Proof.
  intros points.
  apply (fillBuffer_periodic 2000 points (Spec.copies 667 points) 4).
  - vm_compute; reflexivity.
  - apply Nat.ltb_lt. vm_compute; reflexivity.
Defined.



(** A send goes through only when the channel holds fewer than 2 frames. *)
Lemma send_blocks_when_full (s s' : Concurrent.state) (f : Concurrent.Frame) :
  Concurrent.step s (Concurrent.Send f) s' ->
  (length (Concurrent.chan s) < 2)%nat
  /\ Concurrent.chan s' = Concurrent.chan s ++ [f]
  /\ Concurrent.currentFrame s' = Concurrent.currentFrame s.
Proof.
  intros Hstep. inversion Hstep as [s0 f0 Hroom| | | | | | | |]; subst.
  cbn [Concurrent.chan Concurrent.currentFrame].
  split; [exact Hroom|]. split; reflexivity.
Qed.


(** X9.  A non-empty sequence shorter than the target is padded to a
    length of at least 2000 and less than 2000 plus its own length, so at
    most 3998 samples. *)
Theorem fillBuffer_fits (points : list Point) :
  points <> [] -> Z.of_nat (length points) < Dot.targetBufferPoints ->
  exists frame : list Point,
    (forall fuel : nat, (2000 <= fuel)%nat -> Dot.fillBuffer fuel points = Some frame)
    /\ 2000 <= Z.of_nat (length frame) < 2000 + Z.of_nat (length points)
    /\ Z.of_nat (length frame) <= 3998.
Proof.
  intros Hne Hsmall.
  assert (Hlen : 1 <= Z.of_nat (length points)).
  { destruct points; [congruence | cbn [length]; lia]. }
  unfold Dot.targetBufferPoints in Hsmall.
  destruct (padLoop_copies 2000 points Hne 1) as (k & Hk & Hrun & Hge & Hmin);
    [lia | lia | unfold Dot.targetBufferPoints; lia |].
  unfold Dot.targetBufferPoints in Hge, Hmin.
  exists (Spec.copies k points).
  assert (Hk2 : (Z.of_nat k - 1) * Z.of_nat (length points) < 2000).
  { destruct Hmin as [-> | Hmin]; [lia | exact Hmin]. }
  split.
  - intros fuel Hfuel.
    destruct (padLoop_copies fuel points Hne 1) as (k' & Hk' & Hrun' & Hge' & Hmin');
      [lia | lia | unfold Dot.targetBufferPoints; lia |].
    unfold Dot.targetBufferPoints in Hge', Hmin'.
    unfold Dot.fillBuffer. change points with (Spec.copies 1 points) at 2.
    rewrite Hrun'. do 2 f_equal.
    assert (Hk2' : (Z.of_nat k' - 1) * Z.of_nat (length points) < 2000).
    { destruct Hmin' as [-> | Hmin']; [lia | exact Hmin']. }
    nia.
  - rewrite copies_length. nia.
Qed.

Lemma fillBuffer_fits_witness :
  let points := [mkPoint 1 1 0 0 0 0; mkPoint 2 2 0 0 0 0; mkPoint 3 3 0 0 0 0] in
  exists frame : list Point,
    (forall fuel : nat, (2000 <= fuel)%nat -> Dot.fillBuffer fuel points = Some frame)
    /\ 2000 <= Z.of_nat (length frame) < 2000 + Z.of_nat (length points)
    /\ Z.of_nat (length frame) <= 3998.
Proof.
  intros points.
  apply (fillBuffer_fits points); [discriminate | vm_compute; reflexivity].
Defined.


(** X10.  Closing a DAC twice deletes the C++ instance once (not at all
    when the handle is already nil), and leaves the handle nil. *)
Theorem Close_twice_deletes_once (d : DAC) (answer : ccall -> Z) :
  calls answer (Cgo.closeTwice d)
  = (if handle d =? 0 then [] else [HeliosDac_Delete (handle d)])
  /\ forall (W : Type) (dev : W -> ccall -> W * Z) (w : W),
       handle (snd (run dev (Cgo.closeTwice d) w)) = 0.
Proof.
  unfold Cgo.closeTwice, Close.
  destruct (Z.eqb_spec (handle d) 0) as [E|E].
  - cbn [Cgo.bind]. rewrite (proj2 (Z.eqb_eq _ _) E). cbn [calls run snd].
    split; [reflexivity | intros; exact E].
  - cbn [Cgo.bind calls handle Z.eqb]. split; [reflexivity|].
    intros W dev w. cbn [run]. destruct (dev w _) as [w' r]. reflexivity.
Qed.

(** In [examples/simple] no product overflows and no conversion to
    [uint16] wraps: the coordinates are the quotients themselves. *)
Lemma simple_frames_exact (i j : Z) :
  0 <= i < Simple.numFramesInLoop -> 0 <= j < Simple.numPointsPerFrame ->
  Simple.frameY i = i * 65535 / 20
  /\ Simple.frameX j
     = (if j <? 750 then j * 65535 / 750 else 65535 - (j - 750) * 65535 / 750)
  /\ 0 <= Simple.frameX j <= 65535 /\ 0 <= Simple.frameY i <= 65535.
Proof.
  unfold Simple.numFramesInLoop, Simple.numPointsPerFrame.
  intros Hi Hj.
  unfold Simple.frameY, Simple.frameX, Simple.uint16, Simple.maxValue,
    Simple.numFramesInLoop, Simple.numPointsPerFrame.
  change (Z.quot 1500 2) with 750.
  assert (HY : Z.quot (wrap64 (i * 65535)) 20 = i * 65535 / 20).
  { rewrite wrap64_id by (unfold int64_min, int64_max; lia).
    apply Z.quot_div_nonneg; lia. }
  rewrite HY.
  assert (HYr : 0 <= i * 65535 / 20 <= 65535).
  { split; [apply Z.div_pos; lia | apply Z.div_le_upper_bound; lia]. }
  rewrite (Z.mod_small (i * 65535 / 20)) by lia.
  destruct (Z.ltb_spec j 750) as [Hlo|Hhi].
  - assert (HX : Z.quot (wrap64 (j * 65535)) 750 = j * 65535 / 750).
    { rewrite wrap64_id by (unfold int64_min, int64_max; lia).
      apply Z.quot_div_nonneg; lia. }
    rewrite HX.
    assert (0 <= j * 65535 / 750 <= 65535).
    { split; [apply Z.div_pos; lia | apply Z.div_le_upper_bound; lia]. }
    rewrite Z.mod_small by lia. lia.
  - rewrite (wrap64_id (j - 750)) by (unfold int64_min, int64_max; lia).
    assert (HX : Z.quot (wrap64 ((j - 750) * 65535)) 750 = (j - 750) * 65535 / 750).
    { rewrite wrap64_id by (unfold int64_min, int64_max; lia).
      apply Z.quot_div_nonneg; lia. }
    rewrite HX.
    assert (0 <= (j - 750) * 65535 / 750 <= 65535).
    { split; [apply Z.div_pos; lia | apply Z.div_le_upper_bound; lia]. }
    rewrite wrap64_id by (unfold int64_min, int64_max; lia).
    rewrite Z.mod_small by lia. lia.
Qed.

Lemma range_nth (lo hi : Z) (i : nat) :
  lo + Z.of_nat i <= hi -> nth_error (range lo hi) i = Some (lo + Z.of_nat i).
Proof. intros Hi. unfold range. apply range_from_nth. lia. Qed.

(** X11.  Frame [i] of [examples/simple] has 1500 points; point [j] lies
    at height [i * 65535 / 20] and at the sweep position, which stays
    within [0, 65535], with the fixed colour. *)
Theorem simple_frames_sweep (i j : nat) :
  Z.of_nat i < Simple.numFramesInLoop -> Z.of_nat j < Simple.numPointsPerFrame ->
  exists fr : list PointHighRes,
    nth_error Simple.frames i = Some fr
    /\ Z.of_nat (length fr) = Simple.numPointsPerFrame
    /\ nth_error fr j
       = Some (mkPointHighRes (Spec.sweep (Z.of_nat j)) (Z.of_nat i * 65535 / 20)
                              53503 65535 53503)
    /\ 0 <= Spec.sweep (Z.of_nat j) <= 65535.
Proof.
  intros Hi Hj.
  destruct (simple_frames_exact (Z.of_nat i) (Z.of_nat j)) as (HY & HX & HXr & _);
    [lia | lia |].
  exists (Simple.frame (Z.of_nat i)).
  unfold Simple.frames, Simple.frame.
  rewrite nth_error_map, range_nth by (unfold Simple.numFramesInLoop in *; lia).
  cbn [option_map]. split; [reflexivity|].
  rewrite length_map, range_length.
  split; [unfold Simple.numPointsPerFrame; lia|].
  rewrite nth_error_map, range_nth by (unfold Simple.numPointsPerFrame in *; lia).
  cbn [option_map]. unfold Simple.framePoint.
  rewrite !Z.add_0_l, HY. rewrite HX in HXr |- *.
  unfold Spec.sweep. split; [reflexivity | exact HXr].
Qed.

(** X12.  The polling loop of [examples/simple] polls the device at most
    [attempts] times and writes at most one frame, as its last call, right
    after a poll. *)
Theorem pollAndWrite_bounded (W : Type) (dev : W -> ccall -> W * Z)
    (attempts : nat) (d : DAC) (j : Z) (points : list PointHighRes) :
  points <> [] ->
  forall w : W,
  exists k : nat,
    (k <= attempts)%nat
    /\ (Cgo.trace dev (Simple.pollAndWrite attempts d j points) w
        = repeat (HeliosDac_GetStatus (handle d) (wrap32 j)) k
        \/ (1 <= k)%nat
           /\ Cgo.trace dev (Simple.pollAndWrite attempts d j points) w
              = repeat (HeliosDac_GetStatus (handle d) (wrap32 j)) k
                ++ [HeliosDac_WriteFrameHighResolution (handle d) (wrap32 j)
                      (wrap32 Simple.pointsPerSecond) (wrap32 0) points
                      (wrap32 (len points))]).
Proof.
  intros Hne.
  assert (Hlen : (len points =? 0) = false).
  { apply Z.eqb_neq. unfold len. destruct points; [congruence | cbn [length]; lia]. }
  induction attempts as [|attempts IH]; intros w.
  - exists 0%nat. split; [lia | left; reflexivity].
  - cbn [Simple.pollAndWrite]. unfold GetStatus, int_of_C. cbn [Cgo.bind Cgo.trace].
    destruct (dev w (HeliosDac_GetStatus (handle d) (wrap32 j))) as [w1 r].
    destruct (wrap32 r =? 1).
    + exists 1%nat. split; [lia|]. right. split; [lia|].
      unfold WriteFrameHighResolution. rewrite Hlen.
      unfold int_of_C. cbn [Cgo.bind Cgo.trace repeat app].
      destruct (dev w1 _) as [w2 r2]. reflexivity.
    + destruct (wrap32 r <? 0).
      * exists 1%nat. split; [lia|]. left. reflexivity.
      * destruct (IH w1) as (k & Hk & Htrace). exists (S k). split; [lia|].
        destruct Htrace as [Ht | [Hk1 Ht]]; [left | right; split; [lia|]];
          rewrite Ht; reflexivity.
Qed.

Lemma generateFrame_Y (Sin : float -> float) (elapsed : float) :
  map Y (Concurrent.generateFrame Sin elapsed)
  = map (fun i => to_uint16 (of_int 1048
                             + (of_int 3048 - of_int 1048)
                               * (of_int i / of_int (wrap64 (1000 - 1))))%float)
        (range 0 999).
Proof.
  unfold Concurrent.generateFrame. rewrite map_map.
  change (Z.quot Concurrent.PPS Concurrent.FrameRate) with 1000.
  change (1000 - 1) with 999 at 1.
  apply map_ext. intros i. reflexivity.
Qed.

(** X13.  Every frame of [generateFrames] has 1000 samples, all green and
    all at one X; Y starts at 1048, ends at 3048 and never decreases. *)
Theorem generateFrame_shape (Sin : float -> float) (elapsed : float) :
  Z.of_nat (length (Concurrent.generateFrame Sin elapsed)) = 1000
  /\ (exists x : Z,
        Forall (fun p => X p = x /\ R p = 0 /\ G p = 255 /\ B p = 0 /\ I p = 255)
               (Concurrent.generateFrame Sin elapsed))
  /\ hd_error (map Y (Concurrent.generateFrame Sin elapsed)) = Some 1048
  /\ last (map Y (Concurrent.generateFrame Sin elapsed)) 0 = 3048
  /\ Spec.nondecreasing (map Y (Concurrent.generateFrame Sin elapsed)) = true.
Proof.
  split; [|split].
  - unfold Concurrent.generateFrame. rewrite length_map, range_length.
    change (Z.quot Concurrent.PPS Concurrent.FrameRate) with 1000. reflexivity.
  - eexists. unfold Concurrent.generateFrame.
    apply Forall_map, Forall_forall. intros i _.
    unfold Concurrent.framePoint. cbn [X R G B I].
    split; [reflexivity|]. split; [reflexivity|]. split; [reflexivity|].
    split; reflexivity.
  - rewrite generateFrame_Y. vm_compute. split; [reflexivity|]. split; reflexivity.
Qed.

Lemma simple_frames_sweep_witness :
  exists fr : list PointHighRes,
    nth_error Simple.frames 10 = Some fr
    /\ Z.of_nat (length fr) = Simple.numPointsPerFrame
    /\ nth_error fr 1499
       = Some (mkPointHighRes (Spec.sweep (Z.of_nat 1499)) (Z.of_nat 10 * 65535 / 20)
                              53503 65535 53503)
    /\ 0 <= Spec.sweep (Z.of_nat 1499) <= 65535.
Proof.
  apply (simple_frames_sweep 10 1499);
    unfold Simple.numFramesInLoop, Simple.numPointsPerFrame; lia.
Defined.

Lemma pollAndWrite_bounded_witness :
  let points := [mkPointHighRes 0 0 53503 65535 53503] in
  let dev := fun (w : Z) (c : ccall) => (w + 1, if w <? 2 then 0 else 1) in
  [mkPointHighRes 0 0 53503 65535 53503] <> []
  /\ exists k : nat,
    (k <= 1024)%nat
    /\ (Cgo.trace dev (Simple.pollAndWrite 1024 (mkDAC 7) 0 points) 0
        = repeat (HeliosDac_GetStatus (handle (mkDAC 7)) (wrap32 0)) k
        \/ (1 <= k)%nat
           /\ Cgo.trace dev (Simple.pollAndWrite 1024 (mkDAC 7) 0 points) 0
              = repeat (HeliosDac_GetStatus (handle (mkDAC 7)) (wrap32 0)) k
                ++ [HeliosDac_WriteFrameHighResolution (handle (mkDAC 7)) (wrap32 0)
                      (wrap32 Simple.pointsPerSecond) (wrap32 0) points
                      (wrap32 (len points))]).
Proof.
  intros points dev. split; [discriminate|].
  apply (pollAndWrite_bounded Z dev 1024 (mkDAC 7) 0 points); discriminate.
Defined.
